(** * Presence layer of the portfolio site: registry, publisher, remote cursors

    A shallow embedding of [src/components/realtime/remote-cursors.tsx] and of
    the context it reads ([contexts/socketio]): the user registry kept in a
    JavaScript [Map], the two transport handlers that write it, the throttled
    cursor publisher, and the timers of one remote [Cursor] view. *)

From Stdlib Require Import ZArith Lia.
From stdpp Require Import base option countable gmap sets list strings.

Local Open Scope Z_scope.

(** ** JavaScript values and objects *)

Module JS.

(** The values that occur in a [User] record: strings ([socketId], [name],
    [color], [location], [flag]), the nested position object [{x, y}], plain
    numbers, and [undefined], which is what reading an absent property gives. *)
Inductive value : Type :=
  | VUndefined
  | VString (s : string)
  | VNumber (n : Z)
  | VPos (x y : Z).

#[global] Instance value_eq_dec : EqDecision value.
Proof. solve_decision. Defined.

Definition value_encode (v : value) : unit + (string + (Z + Z * Z)) :=
  match v with
  | VUndefined => inl tt
  | VString s => inr (inl s)
  | VNumber n => inr (inr (inl n))
  | VPos x y => inr (inr (inr (x, y)))
  end.

Definition value_decode (e : unit + (string + (Z + Z * Z))) : value :=
  match e with
  | inl _ => VUndefined
  | inr (inl s) => VString s
  | inr (inr (inl n)) => VNumber n
  | inr (inr (inr (x, y))) => VPos x y
  end.

#[global] Instance value_countable : Countable value.
Proof.
  apply (inj_countable' value_encode value_decode).
  by intros [].
Defined.

(** A plain object: its own enumerable properties, by name. *)
Abbreviation object := (gmap string value).

(** [o.f]: the property, or [undefined] when the object has none of that name. *)
Definition prop (o : object) (f : string) : value :=
  default VUndefined (o !! f).

(** [{ ...a, ...b }]: the properties of [a], then those of [b] written over
    them. *)
Definition spread2 (a b : object) : object := b ∪ a.

(** [{ ...a }] *)
Definition spread1 (a : object) : object := a.

(** Strings that are sliced and measured are sequences of UTF-16 code units. *)
Definition code_unit := N.
Abbreviation jsstring := (list code_unit).

End JS.

Import JS.

(** ** The registry and its two writers *)

Module Registry.

(** [UserMap = Map<string, User>]; at run time the key is whatever
    [data.socketId] evaluates to, so keys are values. *)
Abbreviation UserMap := (gmap value object).

(** The updater passed to [setUsers] by the "cursor-changed" listener. *)
Definition cursor_changed (data : object) (prev : UserMap) : UserMap :=
  let newMap := prev in
  match prev !! prop data "socketId" with
  | None => <[prop data "socketId" := spread1 data]> newMap
  | Some old => <[prop data "socketId" := spread2 old data]> newMap
  end.

(** The "users-updated" listener: a fresh map filled by [forEach], handed to
    [setUsers] whatever the previous map was. *)
Definition users_updated (data : list object) (prev : UserMap) : UserMap :=
  foldl (λ newMap user, <[prop user "socketId" := spread1 user]> newMap) ∅ data.


End Registry.

(** ** The throttle around the publisher *)

Module Throttle.

(** Modelled from the spec: the hook [useThrottle] ([hooks/use-throttle]) is
    not among the sources.  The spec gives it as a fixed-interval throttle:
    the first call opens a window of [limit] ms, a call inside an open window
    replaces the arguments kept for it (calls are coalesced, not queued), and
    when the window elapses the wrapped function is invoked once, with the
    latest arguments known at that time. *)
Record t (A : Type) : Type := Make {
  pending : option A;
  deadline : Z;
}.
Arguments Make {A} _ _.
Arguments pending {A} _.
Arguments deadline {A} _.

Definition idle {A} : t A := Make None 0.

Definition call {A} (limit now : Z) (args : A) (th : t A) : t A :=
  match pending th with
  | None => Make (Some args) (now + limit)
  | Some _ => Make (Some args) (deadline th)
  end.

(** The interval timer seen at time [now]: the arguments handed to the wrapped
    function, if the open window has elapsed, and the throttle afterwards. *)
Definition elapse {A} (now : Z) (th : t A) : option A * t A :=
  match pending th with
  | Some args =>
      if bool_decide (deadline th ≤ now) then (Some args, idle) else (None, th)
  | None => (None, th)
  end.

End Throttle.

(** ** The [RemoteCursors] component *)

Module RemoteCursors.
Import Registry.

(** The socket.io client object: its identity (the effect's dependency is
    compared by reference) and its [id] property. *)
Record Socket : Type := { handle : nat; id : value }.

#[global] Instance Socket_eq_dec : EqDecision Socket.
Proof. solve_decision. Defined.

(** What the component owns or writes: the registry of the context (written
    through [setUsers]), the listeners it has put on the socket, the
    dependencies of its two effects at their last run, the throttle of
    [handleMouseMove], and the "cursor-change" payloads emitted so far. *)
Record component : Type := {
  users : UserMap;
  socket : option Socket;
  on_cursor_changed : nat;
  on_users_updated : nat;
  has_cleanup : bool;
  listen_deps : option (option nat * bool);
  move_deps : option (Z * Z * bool);
  throttle : Throttle.t (Z * Z);
  emitted : list (Z * object);
}.

Definition initial (users0 : UserMap) : component :=
  {| users := users0; socket := None;
     on_cursor_changed := 0; on_users_updated := 0; has_cleanup := false;
     listen_deps := None; move_deps := None;
     throttle := Throttle.idle; emitted := [] |}.

(** [socket?.emit("cursor-change", { pos: { x, y }, socketId: socket.id })] *)
Definition payload (s : Socket) (xy : Z * Z) : object :=
  {[ "pos" := VPos xy.1 xy.2; "socketId" := id s ]}.

Definition publish (now : Z) (xy : Z * Z) (c : component) : component :=
  match socket c with
  | None => c
  | Some s =>
      {| users := users c; socket := socket c;
         on_cursor_changed := on_cursor_changed c;
         on_users_updated := on_users_updated c;
         has_cleanup := has_cleanup c;
         listen_deps := listen_deps c; move_deps := move_deps c;
         throttle := throttle c;
         emitted := emitted c ++ [(now, payload s xy)] |}
  end.

Definition set_throttle (th : Throttle.t (Z * Z)) (c : component) : component :=
  {| users := users c; socket := socket c;
     on_cursor_changed := on_cursor_changed c;
     on_users_updated := on_users_updated c;
     has_cleanup := has_cleanup c;
     listen_deps := listen_deps c; move_deps := move_deps c;
     throttle := th; emitted := emitted c |}.

(** [handleMouseMove = useThrottle((x, y) => socket?.emit(...), 200)]; the
    function the throttle invokes is the one of the latest render, so it sees
    the socket of that render. *)
Definition handleMouseMove (now : Z) (x y : Z) (c : component) : component :=
  set_throttle (Throttle.call 200 now (x, y) (throttle c)) c.

(** The throttle's timer, looked at at time [now]. *)
Definition flush (now : Z) (c : component) : component :=
  match Throttle.elapse now (throttle c) with
  | (Some xy, th) => publish (Throttle.deadline (throttle c)) xy (set_throttle th c)
  | (None, _) => c
  end.

(** The first effect, dependencies [[socket, isMobile]]: the cleanup of the
    previous run, then the guard, then the two [socket.on]. *)
Definition listen_effect (s : option Socket) (isMobile : bool)
    (c : component) : component :=
  let deps := (handle <$> s, isMobile) in
  if bool_decide (listen_deps c = Some deps) then c
  else
    let cc := if has_cleanup c then 0%nat else on_cursor_changed c in
    let run := bool_decide (is_Some s) && negb isMobile in
    {| users := users c; socket := socket c;
       on_cursor_changed := if run then S cc else cc;
       on_users_updated :=
         if run then S (on_users_updated c) else on_users_updated c;
       has_cleanup := run;
       listen_deps := Some deps; move_deps := move_deps c;
       throttle := throttle c; emitted := emitted c |}.

(** The second effect, dependencies [[x, y, isMobile]]. *)
Definition move_effect (now : Z) (x y : Z) (isMobile : bool)
    (c : component) : component :=
  let deps := (x, y, isMobile) in
  if bool_decide (move_deps c = Some deps) then c
  else
    let c' :=
      {| users := users c; socket := socket c;
         on_cursor_changed := on_cursor_changed c;
         on_users_updated := on_users_updated c;
         has_cleanup := has_cleanup c;
         listen_deps := listen_deps c; move_deps := Some deps;
         throttle := throttle c; emitted := emitted c |} in
    if isMobile then c' else handleMouseMove now x y c'.

Definition set_users (u : UserMap) (c : component) : component :=
  {| users := u; socket := socket c;
     on_cursor_changed := on_cursor_changed c;
     on_users_updated := on_users_updated c;
     has_cleanup := has_cleanup c;
     listen_deps := listen_deps c; move_deps := move_deps c;
     throttle := throttle c; emitted := emitted c |}.

Definition set_socket (s : option Socket) (c : component) : component :=
  {| users := users c; socket := s;
     on_cursor_changed := on_cursor_changed c;
     on_users_updated := on_users_updated c;
     has_cleanup := has_cleanup c;
     listen_deps := listen_deps c; move_deps := move_deps c;
     throttle := throttle c; emitted := emitted c |}.

(** What can happen to the component: a render with the current values of
    the context's socket, of [useMediaQuery] and of [useMouse]; one of the two
    inbound transport events; or time passing. *)
Inductive event : Type :=
  | Render (s : option Socket) (isMobile : bool) (x y : Z)
  | CursorChanged (data : object)
  | UsersUpdated (data : list object)
  | Tick.

Definition handle_event (now : Z) (ev : event) (c : component) : component :=
  match ev with
  | Render s isMobile x y =>
      move_effect now x y isMobile (listen_effect s isMobile (set_socket s c))
  | CursorChanged data =>
      set_users (Nat.iter (on_cursor_changed c) (cursor_changed data) (users c)) c
  | UsersUpdated data =>
      set_users (Nat.iter (on_users_updated c) (users_updated data) (users c)) c
  | Tick => c
  end.

Definition step (c : component) (te : Z * event) : component :=
  handle_event te.1 te.2 (flush te.1 c).

Definition run (tr : list (Z * event)) (c : component) : component :=
  foldl step c tr.

(** The render is one of a mobile viewport: [useMediaQuery] gave [true]. *)
Definition on_mobile (te : Z * event) : bool :=
  match te.2 with
  | Render _ isMobile _ _ => isMobile
  | _ => true
  end.

(** The render is one without a socket: the context still holds [null]. *)
Definition no_socket (te : Z * event) : bool :=
  match te.2 with
  | Render s _ _ _ => bool_decide (s = None)
  | _ => true
  end.

(** What the mobile guard keeps true of the component. *)
Definition inert (users0 : UserMap) (c : component) : Prop :=
  users c = users0 ∧ emitted c = [] ∧ on_cursor_changed c = 0%nat
  ∧ on_users_updated c = 0%nat ∧ has_cleanup c = false
  ∧ Throttle.pending (throttle c) = None.

(** [socket?.id]: [undefined] without a socket, else the socket's [id]. *)
Definition socket_id (s : option Socket) : value :=
  match s with
  | Some s => id s
  | None => VUndefined
  end.

(** [Array.from(_users.values()).filter(user => user.socketId !== socket?.id)]:
    the records that pass the filter; the [.map] that follows makes one
    [Cursor] element of each of them ([paint] below). *)
Definition rendered (s : option Socket) (us : UserMap) : list object :=
  filter (λ user, prop user "socketId" ≠ socket_id s) (map_to_list us).*2.

Definition render (c : component) : list object :=
  rendered (socket c) (users c).




(** [N] calls of the throttled publisher, each at its time. *)
Definition call_at (c : component) (tc : Z * (Z * Z)) : component :=
  handleMouseMove tc.1 tc.2.1 tc.2.2 (flush tc.1 c).

Definition calls (cs : list (Z * (Z * Z))) (c : component) : component :=
  foldl call_at c cs.

End RemoteCursors.

(** ** One remote [Cursor] view *)

Module Cursor.

(** [Message] of the context; [time] is kept as a number of milliseconds. *)
Record Message : Type := {
  m_socketId : string;
  content : jsstring;
  time : Z;
  username : string;
}.

(** What a timeout of this view does when it runs: the tooltip effect's
    [setShowText(false)], or the message effect's [setMsgText("")]. *)
Inductive callback : Type := HideTooltip | ClearMessage.

#[global] Instance callback_eq_dec : EqDecision callback.
Proof. solve_decision. Defined.

Record timer : Type := { tid : nat; due : Z; cb : callback }.

(** Props ([x], [y], [socketId]), state ([showText], [msgText]), the timer id
    captured by the tooltip effect's cleanup, and the timeouts of this view
    that are still pending, in the order they were set. *)
Record cursor : Type := {
  pos_x : Z;
  pos_y : Z;
  socketId : string;
  showText : bool;
  msgText : jsstring;
  fadeOutTimeout : option nat;
  timers : list timer;
  next_tid : nat;
}.

Definition set_pos (x y : Z) (c : cursor) : cursor :=
  {| pos_x := x; pos_y := y; socketId := socketId c;
     showText := showText c; msgText := msgText c;
     fadeOutTimeout := fadeOutTimeout c;
     timers := timers c; next_tid := next_tid c |}.

Definition setShowText (b : bool) (c : cursor) : cursor :=
  {| pos_x := pos_x c; pos_y := pos_y c; socketId := socketId c;
     showText := b; msgText := msgText c;
     fadeOutTimeout := fadeOutTimeout c;
     timers := timers c; next_tid := next_tid c |}.

Definition set_msgText (s : jsstring) (c : cursor) : cursor :=
  {| pos_x := pos_x c; pos_y := pos_y c; socketId := socketId c;
     showText := showText c; msgText := s;
     fadeOutTimeout := fadeOutTimeout c;
     timers := timers c; next_tid := next_tid c |}.

Definition set_fadeOutTimeout (i : nat) (c : cursor) : cursor :=
  {| pos_x := pos_x c; pos_y := pos_y c; socketId := socketId c;
     showText := showText c; msgText := msgText c;
     fadeOutTimeout := Some i;
     timers := timers c; next_tid := next_tid c |}.

Definition set_timers (l : list timer) (c : cursor) : cursor :=
  {| pos_x := pos_x c; pos_y := pos_y c; socketId := socketId c;
     showText := showText c; msgText := msgText c;
     fadeOutTimeout := fadeOutTimeout c;
     timers := l; next_tid := next_tid c |}.

(** [setTimeout(f, delay)] at time [now]: the new timer's id and the view. *)
Definition setTimeout (f : callback) (now delay : Z) (c : cursor) : nat * cursor :=
  (next_tid c,
   {| pos_x := pos_x c; pos_y := pos_y c; socketId := socketId c;
      showText := showText c; msgText := msgText c;
      fadeOutTimeout := fadeOutTimeout c;
      timers := timers c ++ [{| tid := next_tid c; due := now + delay; cb := f |}];
      next_tid := S (next_tid c) |}).

(** [clearTimeout(i)]: nothing happens when no pending timer has that id. *)
Definition clearTimeout (i : nat) (c : cursor) : cursor :=
  set_timers (filter (λ tm, tid tm ≠ i) (timers c)) c.

(** The first effect, dependencies [[x, y, msgText]], when it runs again: the
    cleanup of its previous run, then its body. *)
Definition tooltip_effect (now : Z) (c : cursor) : cursor :=
  let c1 :=
    match fadeOutTimeout c with
    | Some i => clearTimeout i c
    | None => c
    end in
  let c2 := setShowText true c1 in
  let '(fadeOut, c3) := setTimeout HideTooltip now 3000 c2 in
  set_fadeOutTimeout fadeOut c3.

(** A [setMsgText(s)] taking effect: no render when the state is unchanged,
    else a render in which [msgText] differs, so the tooltip effect runs. *)
Definition commit_msgText (now : Z) (s : jsstring) (c : cursor) : cursor :=
  if bool_decide (msgText c = s) then c
  else tooltip_effect now (set_msgText s c).

Definition ellipsis : jsstring := [46; 46; 46]%N.

(** [lastMsgContent.slice(0, 30) + (lastMsgContent.length > 30 ? "..." : "")] *)
Definition textSlice (lastMsgContent : jsstring) : jsstring :=
  take 30 lastMsgContent
  ++ (if bool_decide (30 < length lastMsgContent)%nat then ellipsis else []).

(** [Math.min(4000, Math.max(textSlice.length * 100, 1000))] *)
Definition timeToRead (textSlice : jsstring) : Z :=
  Z.min 4000 (Z.max (Z.of_nat (length textSlice) * 100) 1000).

(** The second effect, dependencies [[msgs]].  [msgs.at(-1)] is the last
    entry; [content || ""] leaves a string as it is. *)
Definition message_effect (now : Z) (msgs : list Message) (c : cursor) : cursor :=
  match last msgs with
  | Some m =>
      if bool_decide (m_socketId m = socketId c) then
        let lastMsgContent := content m in
        let '(_, c1) :=
          setTimeout ClearMessage now (timeToRead (textSlice lastMsgContent)) c in
        commit_msgText now (textSlice lastMsgContent) c1
      else c
  | None => c
  end.

(** The first render of the view: both effects run, in the order written. *)
Definition mount (now : Z) (x y : Z) (sid : string) (msgs : list Message) : cursor :=
  message_effect now msgs
    (tooltip_effect now
       {| pos_x := x; pos_y := y; socketId := sid;
          showText := false; msgText := [];
          fadeOutTimeout := None; timers := []; next_tid := 0 |}).

(** The pending timer that runs next: the least [due], the one set first
    among equals. *)
Fixpoint earliest (l : list timer) : option timer :=
  match l with
  | [] => None
  | tm :: l' =>
      match earliest l' with
      | None => Some tm
      | Some tm' => if bool_decide (due tm ≤ due tm') then Some tm else Some tm'
      end
  end.

Definition next_due (T : Z) (c : cursor) : option timer :=
  match earliest (timers c) with
  | Some tm => if bool_decide (due tm ≤ T) then Some tm else None
  | None => None
  end.

(** A timer runs, at its [due] time: it leaves the pending list and its
    callback is executed.  The [clearTimeout(t)] inside the message callback
    names the timer that is running, and changes nothing. *)
Definition fire (tm : timer) (c : cursor) : cursor :=
  let c1 := set_timers (filter (λ tm', tid tm' ≠ tid tm) (timers c)) c in
  match cb tm with
  | HideTooltip => setShowText false c1
  | ClearMessage => commit_msgText (due tm) [] c1
  end.

Fixpoint run_timers (fuel : nat) (T : Z) (c : cursor) : cursor :=
  match fuel with
  | O => c
  | S fuel' =>
      match next_due T c with
      | Some tm => run_timers fuel' T (fire tm c)
      | None => c
      end
  end.

(** Time passes up to [T]: every timer due by then runs.  A message timer can
    set one tooltip timer, so twice the number of pending timers bounds the
    number of runs. *)
Definition advance (T : Z) (c : cursor) : cursor :=
  run_timers (2 * length (timers c) + 1) T c.

(** What happens to a mounted view: new props, a new [msgs] array in the
    context, and the two pointer handlers of the [motion.div]. *)
Inductive event : Type :=
  | Move (x y : Z)
  | Msgs (msgs : list Message)
  | MouseEnter
  | MouseLeave.

Definition handle_event (now : Z) (ev : event) (c : cursor) : cursor :=
  match ev with
  | Move x y =>
      if bool_decide (x = pos_x c ∧ y = pos_y c) then c
      else tooltip_effect now (set_pos x y c)
  | Msgs msgs => message_effect now msgs c
  | MouseEnter => setShowText true c
  | MouseLeave => setShowText false c
  end.

Definition step (c : cursor) (te : Z * event) : cursor :=
  handle_event te.1 te.2 (advance te.1 c).

Definition run (tr : list (Z * event)) (c : cursor) : cursor :=
  foldl step c tr.

(** The view at time [T], after the events of [tr]. *)
Definition at_time (T : Z) (tr : list (Z * event)) (c : cursor) : cursor :=
  advance T (run tr c).

(** Timer ids name one pending timer each and are below the next id to be
    given out, as is the id kept by the tooltip effect's cleanup; the pending
    tooltip timers are those with the id kept by that cleanup.  Every state
    reached from [mount] is of this kind. *)
Definition wf (c : cursor) : Prop :=
  (∀ tm tm', tm ∈ timers c → tm' ∈ timers c → tid tm = tid tm' → tm = tm')
  ∧ (∀ tm, tm ∈ timers c → (tid tm < next_tid c)%nat)
  ∧ (∀ i, fadeOutTimeout c = Some i → (i < next_tid c)%nat)
  ∧ (∀ tm, tm ∈ timers c →
       cb tm = HideTooltip ↔ fadeOutTimeout c = Some (tid tm)).

(** The tooltip effect has just run at [t]: the tooltip is shown, and one
    tooltip timer is pending, due at [t + 3000]. *)
Definition tooltip_restarted (t : Z) (c : cursor) : Prop :=
  showText c = true
  ∧ ∃ tm, tm ∈ timers c ∧ cb tm = HideTooltip ∧ due tm = t + 3000
      ∧ ∀ tm', tm' ∈ timers c → cb tm' = HideTooltip → tm' = tm.

(** No message timer is pending. *)
Definition bubble_idle (c : cursor) : Prop :=
  ∀ tm, tm ∈ timers c → cb tm ≠ ClearMessage.

(** The number of timer runs still possible without a new event. *)
Definition weight (tm : timer) : nat :=
  match cb tm with
  | ClearMessage => 2
  | HideTooltip => 1
  end.

Definition measure (l : list timer) : nat := sum_list_with weight l.

(** Whether the message is rendered: the [div] with [msgText] is inside
    [showText && headerText && (...)] and under [msgText && ...]; empty
    strings are falsy.  (The exit animation of [AnimatePresence], which keeps
    a removed tooltip fading for a moment, is not part of this.) *)
Definition message_painted (headerText : jsstring) (c : cursor) : bool :=
  showText c && bool_decide (headerText ≠ []) && bool_decide (msgText c ≠ []).

(** The pending message timers, in the order they were set. *)
Definition pending_clears (c : cursor) : list timer :=
  filter (λ tm, cb tm = ClearMessage) (timers c).

(** The time of the latest event of a trace that starts at [t0]. *)
Definition latest (t0 : Z) (tr : list (Z * event)) : Z :=
  foldl (λ M te, Z.max M te.1) t0 tr.

(** A text on display has a message timer pending, and no message timer is
    due later than 3300 ms after [M]. *)
Definition clears_by (M : Z) (c : cursor) : Prop :=
  wf c
  ∧ (msgText c ≠ [] → ∃ tm, tm ∈ timers c ∧ cb tm = ClearMessage)
  ∧ (∀ tm, tm ∈ timers c → cb tm = ClearMessage → due tm ≤ M + 3300).

(** The spec's words for the two durations, to compare with the code. *)
Definition clamp (v lo hi : Z) : Z := Z.max lo (Z.min v hi).

Definition spec_showing_duration (displayedText : jsstring) : Z :=
  clamp (Z.of_nat (length displayedText) * 100) 1000 4000.

Definition spec_tooltip_visible (last_qualifying T : Z) : bool :=
  bool_decide (last_qualifying ≤ T < last_qualifying + 3000).

End Cursor.

(** ** The message log of the socket context *)

Module SocketContext.
Import Cursor.

(** ["msg-receive"]: [setMsgs((p) => [...p, msgs])]. *)
Definition msg_receive (m : Message) (p : list Message) : list Message :=
  p ++ [m].

End SocketContext.

(** ** The elastic cursor: which element it wraps *)

Module ElasticCursor.

(** An [HTMLElement] as [getRekt] sees it: its class list, its bounding
    rectangle and its parent element, if it has one. *)
Inductive element (Rect : Type) : Type :=
  | Element (classList : list string) (rect : Rect)
      (parentElement : option (element Rect)).
Arguments Element {Rect} _ _ _.

Definition classList {Rect} (el : element Rect) : list string :=
  match el with Element cl _ _ => cl end.

(** [el.getBoundingClientRect()] *)
Definition getBoundingClientRect {Rect} (el : element Rect) : Rect :=
  match el with Element _ r _ => r end.

Definition parentElement {Rect} (el : element Rect) : option (element Rect) :=
  match el with Element _ _ p => p end.

(** [el.classList.contains("cursor-can-hover")] *)
Definition can_hover {Rect} (el : element Rect) : bool :=
  bool_decide ("cursor-can-hover" ∈ classList el).

(** [getRekt]; [None] is [null].  An absent parent makes the optional chain
    [undefined], and the branch is not taken. *)
Definition getRekt {Rect} (el : element Rect) : option Rect :=
  if can_hover el then Some (getBoundingClientRect el)
  else
    match parentElement el with
    | Some parent =>
        if can_hover parent then Some (getBoundingClientRect parent)
        else
          match parentElement parent with
          | Some grandparent =>
              if can_hover grandparent
              then Some (getBoundingClientRect grandparent)
              else None
          | None => None
          end
    | None => None
    end.

(** The element, its parent, the parent of that, and so on up to the root. *)
Fixpoint self_and_ancestors {Rect} (el : element Rect) : list (element Rect) :=
  match el with
  | Element _ _ None => [el]
  | Element _ _ (Some parent) => el :: self_and_ancestors parent
  end.

(** The layout effect of [ElasticCursor] that listens to "mousemove",
    dependencies [[isLoading]]: the number of listeners it has on [window],
    the [isLoading] of its last run, and whether that run returned the
    cleanup (it does not when [isMobile] made it return early). *)
Record mousemove : Type := {
  listeners : nat;
  last_isLoading : option bool;
  returned_cleanup : bool;
}.

Definition unmounted : mousemove :=
  {| listeners := 0; last_isLoading := None; returned_cleanup := false |}.

(** One render with the given [isMobile] and [isLoading]. *)
Definition render_effect (c : mousemove) (r : bool * bool) : mousemove :=
  let isMobile := r.1 in
  let isLoading := r.2 in
  if bool_decide (last_isLoading c = Some isLoading) then c
  else
    let n :=
      match returned_cleanup c, last_isLoading c with
      | true, Some false => pred (listeners c)
      | _, _ => listeners c
      end in
    if isMobile then
      {| listeners := n; last_isLoading := Some isLoading;
         returned_cleanup := false |}
    else
      {| listeners := if isLoading then n else S n;
         last_isLoading := Some isLoading; returned_cleanup := true |}.

Definition renders (rs : list (bool * bool)) : mousemove :=
  foldl render_effect unmounted rs.

End ElasticCursor.

(** ** The console easter egg *)

Module EasterEggs.

(** What an own property of [window] is, as far as the effect can tell: the
    getter it defines itself, or anything else that is already there. *)
Inductive property : Type :=
  | EggGetter
  | Other (v : value).

Definition names : list string := ["naresh"; "Naresh"; "NARESH"].

(** The body of the [forEach]: [Object.hasOwn] guards [Object.defineProperty]. *)
Definition define_getter (window : gmap string property) (name : string)
    : gmap string property :=
  match window !! name with
  | Some _ => window
  | None => <[name := EggGetter]> window
  end.

(** The effect, dependencies [[isDevToolsOpen]], on the own properties of
    [window]. *)
Definition effect (isDevToolsOpen : bool) (window : gmap string property)
    : gmap string property :=
  if isDevToolsOpen then foldl define_getter window names else window.

End EasterEggs.

(** ** Sample data *)

Module Sample.

Definition alice : object :=
  {[ "socketId" := VString "a1"; "name" := VString "alice";
     "color" := VString "#ff0000"; "pos" := VPos 0 0 ]}.

Definition alice_moves : object :=
  {[ "socketId" := VString "a1"; "pos" := VPos 100 200 ]}.

Definition desktop_socket : RemoteCursors.Socket :=
  {| RemoteCursors.handle := 1; RemoteCursors.id := VString "me" |}.

(** A message of [n] letters sent by [sender]. *)
Definition said (sender : string) (n : nat) : Cursor.Message :=
  {| Cursor.m_socketId := sender; Cursor.content := replicate n 97%N;
     Cursor.time := 0; Cursor.username := "guest" |}.

(** The view of the remote user "A", mounted at time 0 with an empty log. *)
Definition view_of_A : Cursor.cursor := Cursor.mount 0 0 0 "A" [].

(** The same view at 1000, when "A" has just said 11 letters, and the timer
    that will clear them. *)
Definition view_of_A_talking : Cursor.cursor :=
  Cursor.run [(1000, Cursor.Msgs [said "A" 11])] view_of_A.

Definition clear_at_2100 : Cursor.timer :=
  {| Cursor.tid := 1; Cursor.due := 2100; Cursor.cb := Cursor.ClearMessage |}.

Definition bob : object :=
  {[ "socketId" := VString "b2"; "name" := VString "bob";
     "color" := VString "#00ff00"; "pos" := VPos 7 7 ]}.



(** The view of "A" showing 11 letters with its tooltip hidden by a
    pointer-leave. *)
Definition view_of_A_hidden : Cursor.cursor :=
  Cursor.run [(1000, Cursor.Msgs [said "A" 11]); (1100, Cursor.MouseLeave)]
    view_of_A.

(** A desktop component with its socket connected and its listeners on. *)
Definition desktop : RemoteCursors.component :=
  RemoteCursors.run [(0, RemoteCursors.Render (Some desktop_socket) false 10 10)]
    (RemoteCursors.initial ∅).

End Sample.

(** * Properties *)

(** ** Registry *)

Section registry_facts.
Import Registry Sample.

Lemma spread2_lookup_r (a b : object) f v :
  b !! f = Some v → spread2 a b !! f = Some v.
Proof. intros Hb. unfold spread2. by apply lookup_union_Some_l. Qed.

Lemma spread2_lookup_l (a b : object) f :
  b !! f = None → spread2 a b !! f = a !! f.
Proof. intros Hb. unfold spread2. by rewrite lookup_union_r. Qed.

Lemma cursor_changed_other data (prev : UserMap) k :
  k ≠ prop data "socketId" →
  cursor_changed data prev !! k = prev !! k.
Proof.
  intros Hk. unfold cursor_changed.
  destruct (prev !! prop data "socketId"); by rewrite lookup_insert_ne.
Qed.

Lemma cursor_changed_seen data (prev : UserMap) old :
  prev !! prop data "socketId" = Some old →
  cursor_changed data prev !! prop data "socketId" = Some (spread2 old data).
Proof. intros H. unfold cursor_changed. rewrite H. apply lookup_insert_eq. Qed.

Lemma cursor_changed_unseen data (prev : UserMap) :
  prev !! prop data "socketId" = None →
  cursor_changed data prev !! prop data "socketId" = Some data.
Proof. intros H. unfold cursor_changed. rewrite H. apply lookup_insert_eq. Qed.

Lemma users_updated_dom_from (data : list object) (acc : UserMap) :
  dom (foldl (λ newMap user, <[prop user "socketId" := spread1 user]> newMap)
         acc data)
  = dom acc ∪ list_to_set ((λ u, prop u "socketId") <$> data).
Proof.
  revert acc. induction data as [|u data IH]; intros acc; simpl.
  - set_solver.
  - rewrite IH, dom_insert_L. set_solver.
Qed.

(** C1. Merge preservation: when the update [data] carries the id [k] of a
    record [R] already in the registry, the record stored under [k]
    afterwards has, for every field, the value of [data] where [data] has
    the field and the former value of [R] where it has not. *)
Theorem merge_preservation (prev : UserMap) (data R : object) (k : value) :
  data !! "socketId" = Some k →
  prev !! k = Some R →
  ∃ R', cursor_changed data prev !! k = Some R'
    ∧ ∀ f, (data !! f = None → R' !! f = R !! f)
         ∧ (∀ v, data !! f = Some v → R' !! f = Some v).
Proof.
  intros Hid HR.
  assert (prop data "socketId" = k) as Hk by (unfold prop; by rewrite Hid).
  exists (spread2 R data). split.
  - rewrite <- Hk in *. by apply cursor_changed_seen.
  - intros f. split.
    + apply spread2_lookup_l.
    + intros v. apply spread2_lookup_r.
Qed.

Lemma merge_preservation_witness :
  ∃ R', cursor_changed alice_moves {[ VString "a1" := alice ]} !! VString "a1"
        = Some R'
    ∧ ∀ f, (alice_moves !! f = None → R' !! f = alice !! f)
         ∧ (∀ v, alice_moves !! f = Some v → R' !! f = Some v).
Proof.
  apply (merge_preservation {[ VString "a1" := alice ]} alice_moves alice
           (VString "a1")).
  - reflexivity.
  - reflexivity.
Defined.

(** C2. Snapshot replacement: after the "users-updated" handler the keys of
    the registry are exactly the ids of the records of the snapshot,
    whatever the registry held before. *)
Theorem snapshot_replacement (prev : UserMap) (data : list object) :
  dom (users_updated data prev)
  = list_to_set ((λ user, prop user "socketId") <$> data).
Proof.
  unfold users_updated. rewrite users_updated_dom_from. set_solver.
Qed.

(** C3, as stated, fails: an update without [socketId] changes an empty
    registry, which then holds an entry under the key [undefined]. *)
Lemma missing_id_is_inserted :
  let data : object := {[ "pos" := VPos 1 2 ]} in
  data !! "socketId" = None
  ∧ cursor_changed data ∅ ≠ ∅
  ∧ cursor_changed data ∅ !! VUndefined = Some data.
Proof.
  cbv zeta. split; [reflexivity|]. split.
  - intros H. apply (f_equal (λ m : UserMap, m !! VUndefined)) in H.
    vm_compute in H. discriminate.
  - reflexivity.
Qed.

(** C3, amended: an update without [socketId] is stored under the key
    [undefined], merged over the record already stored there if there is
    one, and every other entry of the registry is left as it was. *)
Theorem missing_id_keyed_undefined (prev : UserMap) (data : object) :
  data !! "socketId" = None →
  cursor_changed data prev
  = <[VUndefined := spread2 (default ∅ (prev !! VUndefined)) data]> prev
  ∧ ∀ k, k ≠ VUndefined → cursor_changed data prev !! k = prev !! k.
Proof.
  intros Hid.
  assert (prop data "socketId" = VUndefined) as Hk
    by (unfold prop; by rewrite Hid).
  split.
  - unfold cursor_changed. rewrite Hk.
    destruct (prev !! VUndefined) as [old|]; simpl; [done|].
    unfold spread1, spread2. by rewrite (right_id_L ∅ (∪)).
  - intros k Hne. apply cursor_changed_other. by rewrite Hk.
Qed.

Lemma missing_id_keyed_undefined_witness :
  let prev : UserMap := {[ VString "a1" := alice ]} in
  let data : object := {[ "pos" := VPos 1 2 ]} in
  cursor_changed data prev
  = <[VUndefined := spread2 (default ∅ (prev !! VUndefined)) data]> prev
  ∧ ∀ k, k ≠ VUndefined → cursor_changed data prev !! k = prev !! k.
Proof.
  cbv zeta.
  apply (missing_id_keyed_undefined {[ VString "a1" := alice ]}
           {[ "pos" := VPos 1 2 ]}).
  reflexivity.
Defined.

End registry_facts.

(** ** The component: rendering, publishing, the mobile guard *)

Section component_facts.
Import Registry RemoteCursors Sample.

(** C9. Self-exclusion: no record painted by the component has a
    [socketId] equal to [socket?.id], the local session identity. *)
Theorem self_exclusion (c : component) :
  Forall (λ user, prop user "socketId" ≠ socket_id (socket c)) (render c).
Proof.
  unfold render, rendered. apply Forall_forall. intros u Hu.
  by apply list_elem_of_filter in Hu as [Hne _].
Qed.

(** The other records are all painted. *)
Lemma rendered_complete (s : option Socket) (us : UserMap) k u :
  us !! k = Some u → prop u "socketId" ≠ socket_id s → u ∈ rendered s us.
Proof.
  intros Hk Hne. unfold rendered. apply list_elem_of_filter. split; [done|].
  apply list_elem_of_fmap. exists (k, u). split; [done|].
  by apply elem_of_map_to_list.
Qed.

Lemma flush_early (T : Z) (c : component) xy :
  Throttle.pending (throttle c) = Some xy →
  T < Throttle.deadline (throttle c) →
  flush T c = c.
Proof.
  intros Hp Hd. unfold flush, Throttle.elapse. rewrite Hp.
  rewrite bool_decide_eq_false_2; [done|lia].
Qed.

Lemma flush_idle (T : Z) (c : component) :
  Throttle.pending (throttle c) = None → flush T c = c.
Proof. intros Hp. unfold flush, Throttle.elapse. by rewrite Hp. Qed.

Lemma last_cons {A} (a d : A) (l : list A) :
  List.last (a :: l) d = List.last l a.
Proof.
  revert a d. induction l as [|b l IH]; intros a d; [done|].
  change (List.last (a :: b :: l) d) with (List.last (b :: l) d).
  by rewrite (IH b d), (IH b a).
Qed.

(** Calls inside an open window keep the window and replace its arguments. *)
Lemma calls_in_window (rest : list (Z * (Z * Z))) (c : component) xy :
  Throttle.pending (throttle c) = Some xy →
  Forall (λ tc, tc.1 < Throttle.deadline (throttle c)) rest →
  throttle (calls rest c)
  = Throttle.Make (Some (List.last rest.*2 xy)) (Throttle.deadline (throttle c))
  ∧ emitted (calls rest c) = emitted c
  ∧ socket (calls rest c) = socket c.
Proof.
  revert c xy. induction rest as [|[t a] rest IH]; intros c xy Hp Hin.
  - simpl. destruct (throttle c) as [p d]; simpl in *. by subst.
  - apply Forall_cons in Hin as [Ht Hin]. simpl in Ht.
    set (c1 := handleMouseMove t a.1 a.2 c).
    assert (call_at c (t, a) = c1) as Hc1.
    { unfold call_at. simpl. by rewrite (flush_early t c xy). }
    assert (throttle c1 = Throttle.Make (Some a) (Throttle.deadline (throttle c)))
      as Hth.
    { unfold c1, handleMouseMove, Throttle.call. simpl. rewrite Hp.
      by destruct a. }
    unfold calls in *. simpl foldl. rewrite Hc1.
    destruct (IH c1 a) as (H1 & H2 & H3).
    + by rewrite Hth.
    + by rewrite Hth.
    + rewrite H1, H2, H3, Hth. rewrite fmap_cons, last_cons. done.
Qed.

(** C4, as stated, fails while the context holds no socket: three calls of
    the throttled publisher in one window, on a component that has no socket
    yet, are coalesced and nothing is sent, at the end of the window or ever
    after; the same through renders with a moving pointer. *)
Lemma no_send_without_socket :
  let c := initial ∅ in
  let cs := [(0, (1, 1)); (50, (2, 2)); (120, (7, 9))] in
  socket c = None
  ∧ emitted (flush 200 (calls cs c)) = []
  ∧ emitted (flush 100000 (calls cs c)) = []
  ∧ emitted (run [(0, Render None false 1 1); (50, Render None false 2 2);
                  (120, Render None false 7 9); (200, Tick); (100000, Tick)]
               (initial ∅)) = [].
Proof. by vm_compute. Qed.

(** C4, amended: [N] calls of the throttled publisher that fall in one 200 ms
    window, opened by the first of them at [t1], give no send before
    [t1 + 200]; from then on, when the context holds a socket, exactly one
    send has been made, at [t1 + 200], with the payload
    [{ pos: { x, y }, socketId: socket.id }] of the coordinates of the last
    call, and when it holds no socket nothing has been sent; the throttle is
    idle again afterwards. *)
Theorem throttle_coalescing (c : component) (t1 : Z)
    (xy1 : Z * Z) (rest : list (Z * (Z * Z))) (T : Z) :
  Throttle.pending (throttle c) = None →
  Forall (λ tc, t1 ≤ tc.1 < t1 + 200) rest →
  let cs := (t1, xy1) :: rest in
  let cN := List.last cs.*2 xy1 in
  let sent : list (Z * object) :=
    match socket c with
    | Some s =>
        [(t1 + 200, {[ "pos" := VPos cN.1 cN.2; "socketId" := id s ]})]
    | None => []
    end in
  (T < t1 + 200 → emitted (flush T (calls cs c)) = emitted c)
  ∧ (t1 + 200 ≤ T →
     emitted (flush T (calls cs c)) = emitted c ++ sent
     ∧ Throttle.pending (throttle (flush T (calls cs c))) = None).
Proof.
  intros Hidle Hin cs cN sent.
  set (c1 := handleMouseMove t1 xy1.1 xy1.2 c).
  assert (calls cs c = calls rest c1) as Hcs.
  { unfold cs, calls. simpl. f_equal. unfold call_at. simpl.
    by rewrite flush_idle. }
  assert (throttle c1 = Throttle.Make (Some xy1) (t1 + 200)) as Hth.
  { unfold c1, handleMouseMove, Throttle.call. simpl. rewrite Hidle.
    by destruct xy1. }
  destruct (calls_in_window rest c1 xy1) as (H1 & H2 & H3).
  { by rewrite Hth. }
  { rewrite Hth. simpl. eapply Forall_impl; [exact Hin|]. simpl. lia. }
  rewrite Hth in H1. simpl in H1.
  assert (cN = List.last rest.*2 xy1) as HcN.
  { unfold cN, cs. by rewrite fmap_cons, last_cons. }
  rewrite Hcs. split.
  - intros HT. rewrite (flush_early T _ (List.last rest.*2 xy1)).
    + by rewrite H2.
    + by rewrite H1.
    + rewrite H1. simpl. lia.
  - intros HT. unfold flush, Throttle.elapse. rewrite H1. simpl.
    rewrite bool_decide_eq_true_2 by lia.
    unfold publish. simpl. rewrite H3. unfold c1 at 1. simpl.
    unfold sent. destruct (socket c) as [s|] eqn:Hs; simpl.
    + rewrite H2. unfold c1, payload. simpl. by rewrite HcN.
    + rewrite H2. unfold c1. simpl. by rewrite app_nil_r.
Qed.

Lemma throttle_coalescing_witness :
  let c := set_socket (Some desktop_socket) (initial ∅) in
  let cs := [(0, (1, 1)); (50, (2, 2)); (120, (7, 9))] in
  (150 < 0 + 200 → emitted (flush 150 (calls cs c)) = emitted c)
  ∧ (0 + 200 ≤ 200 →
     emitted (flush 200 (calls cs c))
     = emitted c
       ++ [(0 + 200, {[ "pos" := VPos 7 9; "socketId" := VString "me" ]})]
     ∧ Throttle.pending (throttle (flush 200 (calls cs c))) = None).
Proof.
  cbv zeta. split.
  - apply (throttle_coalescing (set_socket (Some desktop_socket) (initial ∅))
             0 (1, 1) [(50, (2, 2)); (120, (7, 9))] 150).
    + reflexivity.
    + repeat constructor; simpl; lia.
  - apply (throttle_coalescing (set_socket (Some desktop_socket) (initial ∅))
             0 (1, 1) [(50, (2, 2)); (120, (7, 9))] 200).
    + reflexivity.
    + repeat constructor; simpl; lia.
Defined.

Lemma inert_initial users0 : inert users0 (initial users0).
Proof. by repeat split. Qed.

Lemma inert_step users0 (c : component) (te : Z * event) :
  on_mobile te = true → inert users0 c → inert users0 (step c te).
Proof.
  intros Hm (Hu & He & Hc & Hn & Hcl & Hp).
  unfold step. rewrite (flush_idle _ _ Hp).
  destruct te as [now [s m x y|data|data|]]; unfold on_mobile in Hm;
    simpl in *.
  - subst m. unfold move_effect, listen_effect. simpl.
    rewrite andb_false_r, Hcl.
    repeat case_bool_decide; by repeat split.
  - rewrite Hc. by repeat split.
  - rewrite Hn. by repeat split.
  - by repeat split.
Qed.

(** C10. On a mobile viewport the component is inert: whatever is rendered
    and whatever arrives or moves, as long as every render sees the media
    query match, the component has no listener on the socket, has called
    the publisher never and emitted nothing, and the registry is the one
    it started with. *)
Theorem mobile_inert (users0 : UserMap) (tr : list (Z * event)) :
  forallb on_mobile tr = true →
  let c := run tr (initial users0) in
  on_cursor_changed c = 0%nat ∧ on_users_updated c = 0%nat
  ∧ Throttle.pending (throttle c) = None
  ∧ emitted c = [] ∧ users c = users0.
Proof.
  intros Hm c.
  assert (inert users0 c) as (Hu & He & Hc & Hn & _ & Hp); [|done].
  unfold c, run. generalize (inert_initial users0).
  generalize (initial users0). clear c.
  induction tr as [|te tr IH]; intros c0 Hc0; [done|].
  simpl in Hm. apply andb_prop in Hm as [Hte Hm].
  simpl. apply IH; [done|]. by apply inert_step.
Qed.

Lemma mobile_inert_witness :
  let tr := [(0, Render (Some desktop_socket) true 10 10);
             (5, Render (Some desktop_socket) true 40 60);
             (9, CursorChanged alice_moves);
             (12, UsersUpdated [alice]);
             (300, Render (Some desktop_socket) true 41 60);
             (900, Tick)] in
  let c := run tr (initial ∅) in
  on_cursor_changed c = 0%nat ∧ on_users_updated c = 0%nat
  ∧ Throttle.pending (throttle c) = None
  ∧ emitted c = [] ∧ users c = ∅.
Proof.
  cbv zeta.
  apply (mobile_inert ∅
           [(0, Render (Some desktop_socket) true 10 10);
            (5, Render (Some desktop_socket) true 40 60);
            (9, CursorChanged alice_moves);
            (12, UsersUpdated [alice]);
            (300, Render (Some desktop_socket) true 41 60);
            (900, Tick)]).
  reflexivity.
Defined.

(** The guard is looked at when the effect runs, not when an event comes in:
    the cleanup takes "cursor-changed" off and leaves "users-updated" on, so
    a view that was rendered once with the query not matching keeps writing
    snapshots into the registry after the query matches. *)
Remark users_updated_outlives_resize :
  let c := run [(0, Render (Some desktop_socket) false 10 10);
                (50, Render (Some desktop_socket) true 10 10);
                (60, UsersUpdated [alice])] (initial ∅) in
  on_cursor_changed c = 0%nat ∧ on_users_updated c = 1%nat
  ∧ users c !! VString "a1" = Some alice.
Proof. cbv zeta. by vm_compute. Qed.

End component_facts.

(** ** The remote cursor view: timers *)

Section timer_facts.
Import Cursor.

Lemma earliest_elem (l : list timer) tm : earliest l = Some tm → tm ∈ l.
Proof.
  revert tm. induction l as [|a l IH]; intros tm; simpl; [done|].
  destruct (earliest l) as [tm'|].
  - case_bool_decide; intros [= <-]; [left | right; by apply IH].
  - intros [= <-]. left.
Qed.

Lemma earliest_le (l : list timer) tm tm' :
  earliest l = Some tm → tm' ∈ l → due tm ≤ due tm'.
Proof.
  revert tm. induction l as [|a l IH]; intros tm; simpl; [done|].
  intros He Hin. apply elem_of_cons in Hin as [->|Hin].
  - destruct (earliest l) as [e|]; [|injection He as <-; lia].
    case_bool_decide; injection He as <-; lia.
  - destruct (earliest l) as [e|] eqn:Hel.
    + specialize (IH e eq_refl Hin).
      case_bool_decide; injection He as <-; lia.
    + destruct l; [by apply elem_of_nil in Hin|]. simpl in Hel.
      destruct (earliest l); [case_bool_decide|]; discriminate.
Qed.

Lemma earliest_None (l : list timer) : earliest l = None → l = [].
Proof.
  destruct l as [|a l]; [done|]. simpl.
  destruct (earliest l); [case_bool_decide|]; discriminate.
Qed.

Lemma next_due_Some T (c : cursor) tm :
  next_due T c = Some tm → tm ∈ timers c ∧ due tm ≤ T.
Proof.
  unfold next_due. destruct (earliest (timers c)) as [e|] eqn:He; [|done].
  case_bool_decide; [|done]. intros [= <-]. split; [|done].
  by apply earliest_elem.
Qed.

Lemma next_due_None T (c : cursor) tm :
  next_due T c = None → tm ∈ timers c → T < due tm.
Proof.
  unfold next_due. destruct (earliest (timers c)) as [e|] eqn:He.
  - case_bool_decide; [done|]. intros _ Hin.
    pose proof (earliest_le _ _ _ He Hin). lia.
  - intros _ Hin. apply earliest_None in He. rewrite He in Hin.
    by apply elem_of_nil in Hin.
Qed.

Lemma measure_app (l k : list timer) : measure (l ++ k) = (measure l + measure k)%nat.
Proof. unfold measure. by rewrite sum_list_with_app. Qed.

Lemma measure_filter (P : timer → Prop) `{∀ tm, Decision (P tm)} (l : list timer) :
  (measure (filter P l) ≤ measure l)%nat.
Proof.
  induction l as [|a l IH]; [done|]. rewrite filter_cons.
  destruct (decide (P a)); unfold measure in *; simpl; lia.
Qed.

Lemma measure_filter_out (P : timer → Prop) `{∀ tm, Decision (P tm)}
    (l : list timer) tm :
  tm ∈ l → ¬ P tm → (measure (filter P l) + weight tm ≤ measure l)%nat.
Proof.
  induction l as [|a l IH]; intros Hin HP; [by apply elem_of_nil in Hin|].
  rewrite filter_cons. apply elem_of_cons in Hin as [<-|Hin].
  - rewrite decide_False by done.
    pose proof (measure_filter P l). unfold measure in *. simpl. lia.
  - specialize (IH Hin HP).
    destruct (decide (P a)); unfold measure in *; simpl; lia.
Qed.

Lemma measure_length (l : list timer) : (measure l ≤ 2 * length l)%nat.
Proof.
  induction l as [|a l IH]; [done|]. unfold measure in *. simpl.
  unfold weight at 1. destruct (cb a); lia.
Qed.

Lemma measure_tooltip_effect now (c : cursor) :
  (measure (timers (tooltip_effect now c)) ≤ measure (timers c) + 1)%nat.
Proof.
  unfold tooltip_effect. destruct (fadeOutTimeout c) as [i|]; simpl.
  - rewrite measure_app.
    pose proof (measure_filter (λ tm, tid tm ≠ i) (timers c)).
    unfold measure at 2. simpl. unfold weight. simpl. lia.
  - rewrite measure_app. unfold measure at 2. simpl. unfold weight. simpl. lia.
Qed.

Lemma measure_fire T (c : cursor) tm :
  next_due T c = Some tm →
  (measure (timers (fire tm c)) < measure (timers c))%nat.
Proof.
  intros Hd. apply next_due_Some in Hd as [Hin _].
  pose proof (measure_filter_out (λ tm', tid tm' ≠ tid tm) (timers c) tm Hin)
    as Hout.
  unfold fire, weight in *. destruct (cb tm); simpl.
  - assert (¬ tid tm ≠ tid tm) as Hn by tauto. specialize (Hout Hn). lia.
  - assert (¬ tid tm ≠ tid tm) as Hn by tauto. specialize (Hout Hn).
    unfold commit_msgText. case_bool_decide.
    + simpl. lia.
    + pose proof (measure_tooltip_effect (due tm)
        (set_msgText [] (set_timers (filter (λ tm', tid tm' ≠ tid tm) (timers c)) c))).
      simpl in *. lia.
Qed.

(** Enough fuel: the timers have all run that were due. *)
Lemma run_timers_quiescent (fuel : nat) T (c : cursor) :
  (measure (timers c) ≤ fuel)%nat →
  next_due T (run_timers fuel T c) = None.
Proof.
  revert c. induction fuel as [|fuel IH]; intros c Hm; simpl.
  - destruct (next_due T c) as [tm|] eqn:Hd; [|done].
    apply measure_fire in Hd. lia.
  - destruct (next_due T c) as [tm|] eqn:Hd; [|done].
    apply IH. apply measure_fire in Hd. lia.
Qed.

Lemma advance_quiescent T (c : cursor) : next_due T (advance T c) = None.
Proof.
  unfold advance. apply run_timers_quiescent.
  pose proof (measure_length (timers c)). lia.
Qed.

(** What every timer run keeps, the passing of time keeps. *)
Lemma run_timers_inv (P : cursor → Prop) T :
  (∀ c tm, P c → next_due T c = Some tm → P (fire tm c)) →
  ∀ fuel c, P c → P (run_timers fuel T c).
Proof.
  intros Hstep fuel. induction fuel as [|fuel IH]; intros c Hc; simpl; [done|].
  destruct (next_due T c) as [tm|] eqn:Hd; [|done].
  apply IH. by apply Hstep.
Qed.

Lemma advance_inv (P : cursor → Prop) T (c : cursor) :
  (∀ c tm, P c → next_due T c = Some tm → P (fire tm c)) →
  P c → P (advance T c).
Proof. intros Hstep Hc. unfold advance. by apply run_timers_inv. Qed.

End timer_facts.

(** ** The remote cursor view: the invariant of its timers *)

Section wf_facts.
Import Cursor.

Lemma wf_sub (c c' : cursor) :
  (∀ tm, tm ∈ timers c' → tm ∈ timers c) →
  next_tid c' = next_tid c →
  fadeOutTimeout c' = fadeOutTimeout c →
  wf c → wf c'.
Proof.
  intros Hsub Hn Hf (Hu & Hb & Hi & Hh).
  split; [|split; [|split]].
  - intros tm tm' H1 H2. apply Hu; by apply Hsub.
  - intros tm H1. rewrite Hn. by apply Hb, Hsub.
  - intros i. rewrite Hf, Hn. apply Hi.
  - intros tm H1. rewrite Hf. by apply Hh, Hsub.
Qed.

Lemma wf_filter (P : timer → Prop) `{∀ tm, Decision (P tm)} (c : cursor) :
  wf c → wf (set_timers (filter P (timers c)) c).
Proof.
  apply wf_sub; [|done..]. simpl. intros tm Hin.
  by apply list_elem_of_filter in Hin as [_ ?].
Qed.

Lemma wf_push_clear (c c' : cursor) d :
  timers c' = timers c ++ [{| tid := next_tid c; due := d; cb := ClearMessage |}] →
  next_tid c' = S (next_tid c) →
  fadeOutTimeout c' = fadeOutTimeout c →
  wf c → wf c'.
Proof.
  intros Ht Hn Hf (Hu & Hb & Hi & Hh).
  split; [|split; [|split]].
  - intros tm tm'. rewrite Ht, !elem_of_app, !list_elem_of_singleton.
    intros [H1| ->] [H2| ->]; simpl; intros Heq; try done.
    + by apply Hu.
    + apply Hb in H1. lia.
    + apply Hb in H2. lia.
  - intros tm. rewrite Ht, Hn, elem_of_app, list_elem_of_singleton.
    intros [H1| ->]; [apply Hb in H1; lia | simpl; lia].
  - intros i. rewrite Hf, Hn. intros H1. apply Hi in H1. lia.
  - intros tm. rewrite Ht, Hf, elem_of_app, list_elem_of_singleton.
    intros [H1| ->]; [by apply Hh|]. simpl. split; [done|].
    intros H1. apply Hi in H1. lia.
Qed.

Lemma wf_tooltip_effect now (c : cursor) : wf c → wf (tooltip_effect now c).
Proof.
  intros (Hu & Hb & Hi & Hh).
  assert (∃ l, timers (tooltip_effect now c)
               = l ++ [{| tid := next_tid c; due := now + 3000; cb := HideTooltip |}]
             ∧ (∀ tm, tm ∈ l → tm ∈ timers c ∧ cb tm ≠ HideTooltip))
    as (l & Ht & Hl).
  { unfold tooltip_effect. destruct (fadeOutTimeout c) as [i|] eqn:Hfo; simpl.
    - eexists. split; [done|]. intros tm [Hne Hin]%list_elem_of_filter.
      split; [done|]. intros Hcb. apply Hh in Hcb; [|done]. congruence.
    - eexists. split; [done|]. intros tm Hin. split; [done|].
      intros Hcb. by apply Hh in Hcb. }
  assert (next_tid (tooltip_effect now c) = S (next_tid c)) as Hn.
  { unfold tooltip_effect. by destruct (fadeOutTimeout c). }
  assert (fadeOutTimeout (tooltip_effect now c) = Some (next_tid c)) as Hf.
  { unfold tooltip_effect. by destruct (fadeOutTimeout c). }
  split; [|split; [|split]].
  - intros tm tm'. rewrite Ht, !elem_of_app, !list_elem_of_singleton.
    intros [H1| ->] [H2| ->]; simpl; intros Heq; try done.
    + apply Hu; [by apply Hl..|done].
    + apply Hl in H1 as [H1 _]. apply Hb in H1. lia.
    + apply Hl in H2 as [H2 _]. apply Hb in H2. lia.
  - intros tm. rewrite Ht, Hn, elem_of_app, list_elem_of_singleton.
    intros [H1| ->]; [|simpl; lia].
    apply Hl in H1 as [H1 _]. apply Hb in H1. lia.
  - intros i. rewrite Hf, Hn. intros [= <-]. lia.
  - intros tm. rewrite Ht, Hf, elem_of_app, list_elem_of_singleton.
    intros [H1| ->]; [|done].
    apply Hl in H1 as [H1 Hcb]. split; [done|].
    intros [= Heq]. apply Hb in H1. lia.
Qed.

Lemma wf_commit_msgText now s (c : cursor) :
  wf c → wf (commit_msgText now s c).
Proof.
  intros Hc. unfold commit_msgText. case_bool_decide; [done|].
  apply wf_tooltip_effect. revert Hc. by apply wf_sub.
Qed.

Lemma wf_message_effect now msgs (c : cursor) :
  wf c → wf (message_effect now msgs c).
Proof.
  intros Hc. unfold message_effect. destruct (last msgs) as [m|]; [|done].
  case_bool_decide; [|done]. simpl.
  apply wf_commit_msgText. revert Hc. by eapply wf_push_clear.
Qed.

Lemma wf_fire (c : cursor) tm : wf c → wf (fire tm c).
Proof.
  intros Hc. unfold fire.
  pose proof (wf_filter (λ tm', tid tm' ≠ tid tm) c Hc) as Hc1.
  destruct (cb tm).
  - revert Hc1. by apply wf_sub.
  - by apply wf_commit_msgText.
Qed.

Lemma wf_advance T (c : cursor) : wf c → wf (advance T c).
Proof. apply advance_inv. intros c' tm Hc' _. by apply wf_fire. Qed.

Lemma wf_handle_event now ev (c : cursor) : wf c → wf (handle_event now ev c).
Proof.
  intros Hc. destruct ev as [x y|msgs| |]; simpl.
  - case_bool_decide; [done|]. apply wf_tooltip_effect.
    revert Hc. by apply wf_sub.
  - by apply wf_message_effect.
  - revert Hc. by apply wf_sub.
  - revert Hc. by apply wf_sub.
Qed.

Lemma wf_mount now x y sid msgs : wf (mount now x y sid msgs).
Proof.
  unfold mount. apply wf_message_effect, wf_tooltip_effect.
  split; [|split; [|split]]; simpl; try done.
  - intros tm tm' H1. by apply elem_of_nil in H1.
  - intros tm H1. by apply elem_of_nil in H1.
  - intros tm H1. by apply elem_of_nil in H1.
Qed.

Lemma wf_run tr (c : cursor) : wf c → wf (run tr c).
Proof.
  revert c. induction tr as [|te tr IH]; intros c Hc; [done|].
  simpl. apply IH. unfold step. by apply wf_handle_event, wf_advance.
Qed.

(** Every state of a view is well formed. *)
Lemma wf_reachable T tr now x y sid msgs :
  wf (at_time T tr (mount now x y sid msgs)).
Proof. unfold at_time. apply wf_advance, wf_run, wf_mount. Qed.

End wf_facts.

(** ** The remote cursor view: truncation, bubble and tooltip *)

Section cursor_facts.
Import Cursor Sample.



Lemma textSlice_length (lastMsgContent : jsstring) :
  length (textSlice lastMsgContent)
  = if bool_decide (30 < length lastMsgContent)%nat then 33%nat
    else length lastMsgContent.
Proof.
  unfold textSlice. rewrite length_app, length_take.
  case_bool_decide.
  - change (length ellipsis) with 3%nat. lia.
  - change (length (@nil code_unit)) with 0%nat. lia.
Qed.

Lemma textSlice_nonempty (lastMsgContent : jsstring) :
  lastMsgContent ≠ [] → textSlice lastMsgContent ≠ [].
Proof. by destruct lastMsgContent. Qed.



Lemma timeToRead_clamp (shown : jsstring) :
  timeToRead shown = spec_showing_duration shown.
Proof. unfold timeToRead, spec_showing_duration, clamp. lia. Qed.

Lemma tooltip_effect_msgText now (c : cursor) :
  msgText (tooltip_effect now c) = msgText c.
Proof. unfold tooltip_effect. by destruct (fadeOutTimeout c). Qed.

Lemma tooltip_effect_showText now (c : cursor) :
  showText (tooltip_effect now c) = true.
Proof. unfold tooltip_effect. by destruct (fadeOutTimeout c). Qed.

Lemma elem_of_tooltip_effect now (c : cursor) tm :
  tm ∈ timers (tooltip_effect now c)
  ↔ (tm ∈ timers c ∧ fadeOutTimeout c ≠ Some (tid tm))
    ∨ tm = {| tid := next_tid c; due := now + 3000; cb := HideTooltip |}.
Proof.
  unfold tooltip_effect. destruct (fadeOutTimeout c) as [i|]; simpl;
    rewrite elem_of_app, list_elem_of_singleton.
  - rewrite list_elem_of_filter. split; intros [[H1 H2]|H]; auto.
    + left. split; [done|]. congruence.
    + left. split; [|done]. congruence.
  - split; intros [H|H]; auto.
    + by destruct H; auto.
Qed.

(** After a run of the tooltip effect at [t], with no message shown, the
    tooltip is visible until [t + 3000] and hidden from then on. *)
Lemma tooltip_effect_window (c : cursor) (t T : Z) :
  wf c → msgText c = [] →
  showText (advance T (tooltip_effect t c)) = bool_decide (T < t + 3000).
Proof.
  intros Hwf Hmsg.
  set (J := λ c : cursor,
    wf c ∧ msgText c = []
    ∧ ((showText c = true
        ∧ ∃ tm, tm ∈ timers c ∧ cb tm = HideTooltip ∧ due tm = t + 3000)
       ∨ (showText c = false ∧ t + 3000 ≤ T
          ∧ ∀ tm, tm ∈ timers c → cb tm ≠ HideTooltip))).
  assert (J (advance T (tooltip_effect t c))) as (_ & _ & HJ).
  { apply advance_inv.
    - clear c Hwf Hmsg. intros c tm' (Hwf & Hmsg & HJ) Hd.
      apply next_due_Some in Hd as [Hin Hdue].
      split; [by apply wf_fire|].
      destruct Hwf as (Hu & Hb & Hi & Hh).
      unfold fire. destruct (cb tm') eqn:Hcb; simpl.
      + split; [done|]. right. split; [done|].
        destruct HJ as [(_ & tm & Htm & Hcbtm & Hduetm)|(_ & _ & Hno)];
          [|by apply Hno in Hin].
        assert (tm = tm') as ->.
        { apply Hu; [done..|]. apply Hh in Hcb, Hcbtm; [|done..]. congruence. }
        split; [lia|]. intros tm2 [Hne Hin2]%list_elem_of_filter Hcb2.
        apply Hh in Hcb, Hcb2; [|done..]. congruence.
      + unfold commit_msgText. rewrite bool_decide_eq_true_2 by done.
        simpl. split; [done|].
        destruct HJ as [(Hs & tm & Htm & Hcbtm & Hduetm)|(Hs & HT & Hno)].
        * left. split; [done|]. exists tm. split; [|done].
          apply list_elem_of_filter. split; [|done].
          intros Heq. assert (tm = tm') as -> by by apply Hu. congruence.
        * right. split; [done|]. split; [done|].
          intros tm2 [_ Hin2]%list_elem_of_filter. by apply Hno.
    - split; [by apply wf_tooltip_effect|].
      split; [by rewrite tooltip_effect_msgText|].
      left. split; [apply tooltip_effect_showText|].
      eexists. split; [apply elem_of_tooltip_effect; by right|done]. }
  pose proof (advance_quiescent T (tooltip_effect t c)) as Hq.
  destruct HJ as [(Hs & tm & Htm & _ & Hduetm)|(Hs & HT & _)]; rewrite Hs.
  - pose proof (next_due_None _ _ _ Hq Htm).
    rewrite bool_decide_eq_true_2; [done|lia].
  - rewrite bool_decide_eq_false_2; [done|lia].
Qed.

Lemma tooltip_effect_restarted (c : cursor) (t : Z) :
  wf c → tooltip_restarted t (tooltip_effect t c).
Proof.
  intros (_ & _ & _ & Hh). split; [apply tooltip_effect_showText|].
  eexists. split; [apply elem_of_tooltip_effect; by right|].
  split; [done|]. split; [done|].
  intros tm Hin Hcb. apply elem_of_tooltip_effect in Hin as [[Hin Hne]|Hin];
    [|done].
  by apply Hh in Hcb.
Qed.

(** C8, as stated, fails.  Pointer-enter does not reset the window: the
    view is mounted at 0, the pointer enters at 2000, and at 3000 the
    tooltip is hidden by the timer set at 0; and when the pointer enters a
    hidden tooltip at 3500, nothing hides it again.  Nor does the tooltip
    hide 3000 ms after a message text appears: the text shown at 1000 is
    cleared at 2100, which runs the effect again, and the tooltip is still
    there at 4000 and until 5100. *)
Lemma tooltip_ignores_pointer_enter :
  (spec_tooltip_visible 2000 3000 = true
   ∧ showText (at_time 3000 [(2000, MouseEnter)] view_of_A) = false)
  ∧ (spec_tooltip_visible 3500 6500 = false
     ∧ showText (at_time 6500 [(3500, MouseEnter)] view_of_A) = true)
  ∧ (spec_tooltip_visible 1000 4000 = false
     ∧ showText (at_time 4000 [(1000, Msgs [said "A" 11])] view_of_A) = true
     ∧ showText (at_time 5099 [(1000, Msgs [said "A" 11])] view_of_A) = true
     ∧ showText (at_time 5100 [(1000, Msgs [said "A" 11])] view_of_A) = false).
Proof. by vm_compute. Qed.

(** C8, amended: a change of position, or of the message text (a new text
    shown, or the shown text cleared by its timer), at time [t] shows the
    tooltip and replaces the pending tooltip timer by one due at
    [t + 3000]; when no message is shown then and no other event follows,
    the tooltip is visible until [t + 3000] and hidden from then on.
    Pointer-enter shows the tooltip and leaves the timers as they are;
    pointer-leave hides it at once. *)
Theorem tooltip_timeout (c : cursor) (t T : Z) :
  wf c →
  (∀ x y, ¬ (x = pos_x c ∧ y = pos_y c) →
     let c' := handle_event t (Move x y) c in
     tooltip_restarted t c'
     ∧ (msgText c = [] → showText (advance T c') = bool_decide (T < t + 3000)))
  ∧ (∀ msgs,
       let c' := handle_event t (Msgs msgs) c in
       msgText c' ≠ msgText c → tooltip_restarted t c')
  ∧ (∀ tm, cb tm = ClearMessage → msgText c ≠ [] →
       let c' := fire tm c in
       tooltip_restarted (due tm) c'
       ∧ showText (advance T c') = bool_decide (T < due tm + 3000))
  ∧ (showText (handle_event t MouseEnter c) = true
     ∧ timers (handle_event t MouseEnter c) = timers c)
  ∧ showText (handle_event t MouseLeave c) = false.
Proof.
  intros Hwf. split; [|split; [|split; [|done]]].
  - intros x y Hxy c'.
    assert (c' = tooltip_effect t (set_pos x y c)) as ->.
    { unfold c'. simpl. by rewrite bool_decide_eq_false_2. }
    assert (wf (set_pos x y c)) as Hwf' by (revert Hwf; by apply wf_sub).
    split; [by apply tooltip_effect_restarted|].
    intros Hmsg. by apply tooltip_effect_window.
  - intros msgs c'. unfold c'. simpl. unfold message_effect.
    destruct (last msgs) as [m|]; [|done].
    case_bool_decide; [|done]. simpl.
    unfold commit_msgText. simpl. case_bool_decide as Hsame; [by rewrite Hsame|].
    intros _. apply tooltip_effect_restarted.
    assert (wf (setTimeout ClearMessage t
                  (timeToRead (textSlice (content m))) c).2) as Hwf1
      by (revert Hwf; by eapply wf_push_clear).
    revert Hwf1. by apply wf_sub.
  - intros tm Hcb Hmsg c'.
    assert (c' = tooltip_effect (due tm)
              (set_msgText []
                 (set_timers (filter (λ tm', tid tm' ≠ tid tm) (timers c)) c)))
      as ->.
    { unfold c', fire. rewrite Hcb. unfold commit_msgText. simpl.
      by rewrite bool_decide_eq_false_2. }
    pose proof (wf_filter (λ tm', tid tm' ≠ tid tm) c Hwf) as Hwf1.
    assert (wf (set_msgText []
                 (set_timers (filter (λ tm', tid tm' ≠ tid tm) (timers c)) c)))
      as Hwf2 by (revert Hwf1; by apply wf_sub).
    split; [by apply tooltip_effect_restarted|].
    by apply tooltip_effect_window.
Qed.

Lemma tooltip_timeout_witness :
  (let c' := handle_event 1000 (Move 5 5) view_of_A in
   tooltip_restarted 1000 c'
   ∧ showText (advance 3999 c') = bool_decide (3999 < 1000 + 3000))
  ∧ (let c' := handle_event 1000 (Msgs [said "A" 11]) view_of_A in
     tooltip_restarted 1000 c')
  ∧ (let c' := fire clear_at_2100 view_of_A_talking in
     tooltip_restarted 2100 c'
     ∧ showText (advance 5100 c') = bool_decide (5100 < 2100 + 3000)).
Proof.
  split; [|split].
  - destruct (proj1 (tooltip_timeout view_of_A 1000 3999 (wf_mount 0 0 0 "A" []))
                5 5) as [H1 H2].
    + simpl. lia.
    + split; [exact H1|]. apply H2. reflexivity.
  - apply (proj1 (proj2 (tooltip_timeout view_of_A 1000 0
                           (wf_mount 0 0 0 "A" [])))).
    by vm_compute.
  - apply (proj1 (proj2 (proj2 (tooltip_timeout view_of_A_talking 2100 5100
                                  (wf_run _ _ (wf_mount 0 0 0 "A" [])))))
             clear_at_2100).
    + reflexivity.
    + by vm_compute.
Defined.

(** C5: the timer of an earlier message is still pending when the next
    message of the same sender arrives, and clears the later text early.
    "A" says 40 letters at 1000 (shown for 3300 ms) and 11 letters at 4000
    (to be shown for 1100 ms): both timers are then pending, and the second
    text is gone at 4300. *)
Theorem bubble_timers_stack :
  let tr := [(1000, Msgs [said "A" 40]);
             (4000, Msgs [said "A" 40; said "A" 11])] in
  filter (λ tm, cb tm = ClearMessage) (timers (run tr view_of_A))
  = [{| tid := 1; due := 4300; cb := ClearMessage |};
     {| tid := 3; due := 5100; cb := ClearMessage |}]
  ∧ timeToRead (textSlice (content (said "A" 11))) = 1100
  ∧ msgText (at_time 4299 tr view_of_A) = content (said "A" 11)
  ∧ msgText (at_time 4300 tr view_of_A) = [].
Proof. by vm_compute. Qed.

(** C6, as stated, fails: a message of 35 characters is displayed as 33 and
    shown for 3300 ms, not 3500; sent at 1000, it is gone at 4300. *)
Lemma thirty_five_chars_shown_3300 :
  let m := said "A" 35 in
  length (content m) = 35%nat
  ∧ timeToRead (textSlice (content m)) ≠ 3500
  ∧ msgText (at_time 4299 [(1000, Msgs [m])] view_of_A) = textSlice (content m)
  ∧ msgText (at_time 4300 [(1000, Msgs [m])] view_of_A) = [].
Proof. by vm_compute. Qed.

(** C6, amended: when a message of the view's user arrives at [t] while no
    earlier message timer is pending, its displayed text is shown until
    [t + d] and not after, where [d] is the length of the displayed text
    times 100 ms, kept between 1000 and 4000 ms; a displayed text of 8
    characters gives 1000 ms, and a message of 35 characters, displayed as
    33, gives 3300 ms. *)
Theorem showing_duration (c : cursor) (msgs : list Message) (m : Message)
    (t T : Z) :
  wf c → bubble_idle c →
  last msgs = Some m → m_socketId m = socketId c → content m ≠ [] →
  let shown := textSlice (content m) in
  let d := timeToRead shown in
  d = spec_showing_duration shown
  ∧ msgText (advance T (handle_event t (Msgs msgs) c))
    = (if bool_decide (T < t + d) then shown else [])
  ∧ (length shown = 8%nat → d = 1000)
  ∧ (length (content m) = 35%nat → d = 3300).
Proof.
  intros Hwf Hidle Hlast Hsid Hne shown d.
  split; [apply timeToRead_clamp|].
  split; [|split].
  2:{ intros Hlen. unfold d, timeToRead. rewrite Hlen. lia. }
  2:{ intros Hlen. unfold d, timeToRead, shown. rewrite textSlice_length, Hlen.
      simpl. lia. }
  set (new := {| tid := next_tid c; due := t + d; cb := ClearMessage |}).
  set (c1 := (setTimeout ClearMessage t d c).2).
  assert (handle_event t (Msgs msgs) c = commit_msgText t shown c1) as ->.
  { simpl. unfold message_effect. rewrite Hlast.
    by rewrite bool_decide_eq_true_2. }
  assert (wf c1) as Hwf1.
  { revert Hwf. by eapply wf_push_clear. }
  assert (∀ tm, tm ∈ timers c1 → cb tm = ClearMessage → tm = new) as Huniq1.
  { intros tm. unfold c1. simpl. rewrite elem_of_app, list_elem_of_singleton.
    intros [Hin|Hin] Hcb; [by apply Hidle in Hin|done]. }
  assert (new ∈ timers c1) as Hnew1.
  { unfold c1. simpl. apply elem_of_app. right. by apply list_elem_of_singleton. }
  assert (shown ≠ []) as Hshown by by apply textSlice_nonempty.
  set (K := λ c : cursor,
    wf c
    ∧ ((msgText c = shown
        ∧ new ∈ timers c
        ∧ ∀ tm, tm ∈ timers c → cb tm = ClearMessage → tm = new)
       ∨ (msgText c = [] ∧ t + d ≤ T ∧ bubble_idle c))).
  assert (K (advance T (commit_msgText t shown c1))) as (_ & HK).
  { apply advance_inv.
    - intros c2 tm' (Hwf2 & HK2) Hd.
      apply next_due_Some in Hd as [Hin Hdue].
      split; [by apply wf_fire|].
      destruct Hwf2 as (Hu & Hb & Hi & Hh).
      unfold fire. destruct (cb tm') eqn:Hcb; simpl.
      + destruct HK2 as [(Hm & Hnew & Huniq)|(Hm & HT & Hid)].
        * left. split; [done|]. split.
          -- apply list_elem_of_filter. split; [|done]. intros Heq.
             assert (new = tm') as <- by by apply Hu. discriminate.
          -- intros tm [_ Hin2]%list_elem_of_filter. by apply Huniq.
        * right. split; [done|]. split; [done|].
          intros tm [_ Hin2]%list_elem_of_filter. by apply Hid.
      + destruct HK2 as [(Hm & Hnew & Huniq)|(Hm & HT & Hid)];
          [|by apply Hid in Hin].
        assert (tm' = new) as -> by by apply Huniq.
        unfold commit_msgText. simpl.
        rewrite bool_decide_eq_false_2 by (by rewrite Hm).
        right. rewrite tooltip_effect_msgText. simpl.
        split; [done|]. split; [simpl in Hdue; lia|].
        intros tm Htm Hcbtm.
        apply elem_of_tooltip_effect in Htm as [[Htm _]| ->]; [|done].
        simpl in Htm. apply list_elem_of_filter in Htm as [Hneq Htm].
        apply Hneq. by rewrite (Huniq tm Htm Hcbtm).
    - split; [by apply wf_commit_msgText|]. left.
      unfold commit_msgText. case_bool_decide as Hcase; [done|].
      rewrite tooltip_effect_msgText. split; [done|]. split.
      + apply elem_of_tooltip_effect. left. split; [done|].
        intros Hfo. destruct Hwf as (_ & _ & Hi & _).
        apply Hi in Hfo. simpl in Hfo. lia.
      + intros tm Htm Hcbtm.
        apply elem_of_tooltip_effect in Htm as [[Htm _]| ->]; [|done].
        by apply Huniq1. }
  pose proof (advance_quiescent T (commit_msgText t shown c1)) as Hq.
  destruct HK as [(Hm & Hin & _)|(Hm & HT & _)]; rewrite Hm.
  - pose proof (next_due_None _ _ _ Hq Hin) as Hlt. simpl in Hlt.
    by rewrite bool_decide_eq_true_2.
  - rewrite bool_decide_eq_false_2; [done|lia].
Qed.

Lemma showing_duration_witness :
  let shown := textSlice (content (said "A" 35)) in
  let d := timeToRead shown in
  d = spec_showing_duration shown
  ∧ msgText (advance 4299 (handle_event 1000 (Msgs [said "A" 35]) view_of_A))
    = (if bool_decide (4299 < 1000 + d) then shown else [])
  ∧ (length shown = 8%nat → d = 1000)
  ∧ (length (content (said "A" 35)) = 35%nat → d = 3300).
Proof.
  apply (showing_duration view_of_A [said "A" 35] (said "A" 35) 1000 4299).
  - apply wf_mount.
  - intros tm Hin. apply list_elem_of_singleton in Hin as ->. done.
  - reflexivity.
  - reflexivity.
  - done.
Defined.

End cursor_facts.

(** * Further properties of the code *)

(** ** The registry's writers *)

Section registry_more.
Import Registry Sample.

(** The "cursor-changed" update is idempotent: the same payload handled twice
    (as it is when the listener is on the socket more than once) leaves the
    registry as handling it once does. *)
Theorem cursor_changed_idempotent (data : object) (prev : UserMap) :
  cursor_changed data (cursor_changed data prev) = cursor_changed data prev.
Proof.
  destruct (prev !! prop data "socketId") as [old|] eqn:Hk.
  - unfold cursor_changed at 1.
    rewrite (cursor_changed_seen _ _ _ Hk).
    unfold cursor_changed. rewrite Hk, insert_insert_eq. f_equal.
    unfold spread2. by rewrite (assoc_L (∪)), (idemp_L (∪)).
  - unfold cursor_changed at 1.
    rewrite (cursor_changed_unseen _ _ Hk).
    unfold cursor_changed. rewrite Hk, insert_insert_eq. f_equal.
    unfold spread2, spread1. by rewrite (idemp_L (∪)).
Qed.

(** The "cursor-changed" update never removes a user: the keys afterwards
    are the keys before together with the payload's id, and the records under
    all other keys are the same. *)
Theorem cursor_changed_keeps_users (data : object) (prev : UserMap) :
  dom (cursor_changed data prev) = {[prop data "socketId"]} ∪ dom prev
  ∧ ∀ k, k ≠ prop data "socketId" → cursor_changed data prev !! k = prev !! k.
Proof.
  split.
  - unfold cursor_changed.
    destruct (prev !! prop data "socketId"); apply dom_insert_L.
  - intros k. apply cursor_changed_other.
Qed.

Lemma cursor_changed_keeps_users_witness :
  dom (cursor_changed alice_moves {[ VString "b2" := bob ]})
  = {[prop alice_moves "socketId"]} ∪ dom ({[ VString "b2" := bob ]} : UserMap)
  ∧ cursor_changed alice_moves {[ VString "b2" := bob ]} !! VString "b2"
    = ({[ VString "b2" := bob ]} : UserMap) !! VString "b2".
Proof.
  destruct (cursor_changed_keeps_users alice_moves {[ VString "b2" := bob ]})
    as [H1 H2].
  split; [exact H1|]. apply H2. by vm_compute.
Defined.

Lemma users_updated_lookup_from (data : list object) (acc : UserMap) k :
  foldl (λ newMap user, <[prop user "socketId" := spread1 user]> newMap)
    acc data !! k
  = match last (filter (λ user, prop user "socketId" = k) data) with
    | Some user => Some user
    | None => acc !! k
    end.
Proof.
  revert acc. induction data as [|u data IH]; intros acc; [done|].
  simpl foldl. rewrite IH, filter_cons.
  destruct (decide (prop u "socketId" = k)) as [<-|Hne].
  - rewrite lookup_insert_eq.
    set (l := filter _ data). change (u :: l) with ([u] ++ l).
    rewrite last_app. by destruct (last l).
  - by rewrite lookup_insert_ne.
Qed.

(** Reading a snapshot back: the record found under an id after
    "users-updated" is the last record of the snapshot that has this id, and
    there is none when the snapshot has no record with this id. *)
Theorem users_updated_lookup (data : list object) (prev : UserMap) k :
  users_updated data prev !! k
  = last (filter (λ user, prop user "socketId" = k) data).
Proof.
  unfold users_updated. rewrite users_updated_lookup_from, lookup_empty.
  by destruct (last _).
Qed.



End registry_more.

(** ** The component: listeners and the socket *)

Section component_more.
Import Registry RemoteCursors Sample.


Lemma flush_listeners T (c : component) :
  on_cursor_changed (flush T c) = on_cursor_changed c
  ∧ on_users_updated (flush T c) = on_users_updated c
  ∧ has_cleanup (flush T c) = has_cleanup c.
Proof.
  unfold flush, Throttle.elapse. destruct (Throttle.pending (throttle c)); [|done].
  case_bool_decide; [|done]. unfold publish. simpl. by destruct (socket c).
Qed.











Lemma listeners_step (c : component) te :
  on_cursor_changed c = (if has_cleanup c then 1 else 0)%nat →
  on_cursor_changed (step c te) = (if has_cleanup (step c te) then 1 else 0)%nat
  ∧ (on_users_updated c ≤ on_users_updated (step c te))%nat.
Proof.
  intros Hc. unfold step.
  destruct (flush_listeners te.1 c) as (H1 & H2 & H3).
  rewrite <- H1, <- H3 in Hc. rewrite <- H2.
  revert Hc. generalize (flush te.1 c). clear. intros c Hc.
  destruct te as [now [s m x y|data|data|]]; simpl fst; simpl snd; simpl;
    [|done..].
  unfold move_effect, listen_effect. simpl.
  destruct (has_cleanup c) eqn:Hcl, (bool_decide (is_Some s)), m;
    repeat case_bool_decide; simpl; rewrite ?Hcl; split; try done; lia.
Qed.

(** At most one "cursor-changed" listener is on the socket at any time,
    whatever is rendered and in whatever order; and no step of the component
    ever takes a "users-updated" listener off. *)
Theorem listeners_bounded (users0 : UserMap) (tr : list (Z * event)) :
  let c := run tr (initial users0) in
  (on_cursor_changed c ≤ 1)%nat
  ∧ ∀ te, (on_users_updated c ≤ on_users_updated (step c te))%nat.
Proof.
  intros c.
  assert (on_cursor_changed c = (if has_cleanup c then 1 else 0)%nat) as Hinv.
  { unfold c, run.
    assert (on_cursor_changed (initial users0)
            = (if has_cleanup (initial users0) then 1 else 0)%nat) as H0 by done.
    revert H0. generalize (initial users0). clear c.
    induction tr as [|te tr IH]; intros c0 H0; [done|].
    simpl. apply IH. by apply listeners_step. }
  split.
  - rewrite Hinv. destruct (has_cleanup c); lia.
  - intros te. by apply listeners_step.
Qed.

Lemma flush_listen_deps T (c : component) :
  listen_deps (flush T c) = listen_deps c.
Proof.
  unfold flush, Throttle.elapse. destruct (Throttle.pending (throttle c)); [|done].
  case_bool_decide; [|done]. unfold publish. simpl. by destruct (socket c).
Qed.

Lemma move_effect_listeners now x y m (c : component) :
  on_cursor_changed (move_effect now x y m c) = on_cursor_changed c
  ∧ on_users_updated (move_effect now x y m c) = on_users_updated c
  ∧ has_cleanup (move_effect now x y m c) = has_cleanup c
  ∧ listen_deps (move_effect now x y m c) = listen_deps c.
Proof. unfold move_effect. case_bool_decide; [done|]. by destruct m. Qed.

Lemma listening_step (c : component) te :
  (on_cursor_changed c = (if has_cleanup c then 1 else 0)%nat
   ∧ (has_cleanup c = true → (1 ≤ on_users_updated c)%nat)
   ∧ ∀ h m, listen_deps c = Some (h, m) →
       has_cleanup c = bool_decide (is_Some h) && negb m) →
  let c' := step c te in
  on_cursor_changed c' = (if has_cleanup c' then 1 else 0)%nat
  ∧ (has_cleanup c' = true → (1 ≤ on_users_updated c')%nat)
  ∧ ∀ h m, listen_deps c' = Some (h, m) →
      has_cleanup c' = bool_decide (is_Some h) && negb m.
Proof.
  intros Hc c'. unfold c', step. clear c'.
  destruct (flush_listeners te.1 c) as (H1 & H2 & H3).
  rewrite <- H1, <- H2, <- H3, <- (flush_listen_deps te.1 c) in Hc.
  revert Hc. generalize (flush te.1 c). clear. intros c (Hc & Hn & Hd).
  destruct te as [now [s m x y|data|data|]]; simpl fst; simpl snd;
    [|done..].
  assert (bool_decide (is_Some (handle <$> s)) = bool_decide (is_Some s)) as Hs.
  { apply bool_decide_ext, fmap_is_Some. }
  change (handle_event now (Render s m x y) c)
    with (move_effect now x y m (listen_effect s m (set_socket s c))).
  destruct (move_effect_listeners now x y m (listen_effect s m (set_socket s c)))
    as (E1 & E2 & E3 & E4).
  rewrite E1, E2, E3, E4. clear E1 E2 E3 E4.
  unfold listen_effect. simpl.
  destruct (decide (listen_deps c = Some (handle <$> s, m))) as [Hdep|Hdep].
  - rewrite bool_decide_eq_true_2 by done. done.
  - rewrite bool_decide_eq_false_2 by done. simpl. rewrite <- Hs.
    destruct (has_cleanup c) eqn:Hcl,
      (bool_decide (is_Some (handle <$> s))) eqn:Hb, m;
      simpl; rewrite ?Hc; (split; [done|]);
      (split; [intros ?; (done || lia)|]);
      intros h m' [= <- <-]; by rewrite Hb.
Qed.

(** On a viewport that is not mobile, with a socket, the component listens:
    right after any render that sees a socket and no match of the media
    query, whatever happened before, one "cursor-changed" listener and at
    least one "users-updated" listener are on the socket. *)
Theorem desktop_listens (users0 : UserMap) (tr : list (Z * event))
    (now : Z) (s : Socket) (x y : Z) :
  let c := run (tr ++ [(now, Render (Some s) false x y)]) (initial users0) in
  on_cursor_changed c = 1%nat ∧ (1 ≤ on_users_updated c)%nat.
Proof.
  intros c.
  assert (on_cursor_changed c = (if has_cleanup c then 1 else 0)%nat
          ∧ (has_cleanup c = true → (1 ≤ on_users_updated c)%nat)
          ∧ ∀ h m, listen_deps c = Some (h, m) →
              has_cleanup c = bool_decide (is_Some h) && negb m)
    as (Hc & Hn & Hd).
  { unfold c, run.
    assert (on_cursor_changed (initial users0)
            = (if has_cleanup (initial users0) then 1 else 0)%nat
            ∧ (has_cleanup (initial users0) = true →
               (1 ≤ on_users_updated (initial users0))%nat)
            ∧ ∀ h m, listen_deps (initial users0) = Some (h, m) →
                has_cleanup (initial users0) = bool_decide (is_Some h) && negb m)
      as H0 by done.
    revert H0. generalize (initial users0). clear c.
    induction (tr ++ [(now, Render (Some s) false x y)]) as [|te l IH];
      intros c0 H0; [done|].
    simpl. apply IH. by apply listening_step. }
  assert (listen_deps c = Some (Some (handle s), false)) as Hdeps.
  { unfold c, run. rewrite foldl_app. simpl. unfold step at 1. simpl.
    unfold move_effect, listen_effect. simpl.
    repeat case_bool_decide; simpl; done. }
  specialize (Hd _ _ Hdeps).
  rewrite bool_decide_eq_true_2 in Hd by by eexists.
  simpl in Hd. rewrite Hd in Hc. split; [done|]. by apply Hn.
Qed.

Lemma iter_idemp {A} (f : A → A) (n : nat) (a : A) :
  (∀ a, f (f a) = f a) → (1 ≤ n)%nat → Nat.iter n f a = f a.
Proof.
  intros Hf Hn. induction n as [|[|n] IH]; [lia|done|].
  change (Nat.iter (S (S n)) f a) with (f (Nat.iter (S n) f a)).
  rewrite IH by lia. apply Hf.
Qed.

(** However many listeners are on the socket, an inbound event changes the
    registry as one listener would: a "cursor-changed" payload is merged once,
    a "users-updated" snapshot replaces the registry. *)
Theorem inbound_handled_once (c : component) (now : Z) :
  (∀ data, (1 ≤ on_cursor_changed c)%nat →
     users (handle_event now (CursorChanged data) c)
     = cursor_changed data (users c))
  ∧ (∀ data, (1 ≤ on_users_updated c)%nat →
       users (handle_event now (UsersUpdated data) c)
       = users_updated data (users c)).
Proof.
  split; intros data Hn; simpl.
  - apply iter_idemp; [|done]. intros a. apply cursor_changed_idempotent.
  - by apply iter_idemp.
Qed.

Lemma inbound_handled_once_witness :
  users (handle_event 30 (CursorChanged alice_moves) desktop)
  = cursor_changed alice_moves (users desktop)
  ∧ users (handle_event 30 (UsersUpdated [alice; bob]) desktop)
    = users_updated [alice; bob] (users desktop).
Proof.
  split.
  - apply (proj1 (inbound_handled_once desktop 30)). by vm_compute.
  - apply (proj2 (inbound_handled_once desktop 30)). by vm_compute.
Defined.

Lemma no_socket_step users0 (c : component) te :
  no_socket te = true →
  socket c = None ∧ users c = users0 ∧ emitted c = []
  ∧ on_cursor_changed c = 0%nat ∧ on_users_updated c = 0%nat
  ∧ has_cleanup c = false →
  let c' := step c te in
  socket c' = None ∧ users c' = users0 ∧ emitted c' = []
  ∧ on_cursor_changed c' = 0%nat ∧ on_users_updated c' = 0%nat
  ∧ has_cleanup c' = false.
Proof.
  intros Hte (Hs & Hu & He & Hc & Hn & Hcl) c'. unfold c', step. clear c'.
  assert (let f := flush te.1 c in
          socket f = None ∧ users f = users0 ∧ emitted f = []
          ∧ on_cursor_changed f = 0%nat ∧ on_users_updated f = 0%nat
          ∧ has_cleanup f = false) as Hf.
  { unfold flush, Throttle.elapse.
    destruct (Throttle.pending (throttle c)); [|done].
    case_bool_decide; [|done]. unfold publish. simpl. by rewrite Hs. }
  revert Hf. generalize (flush te.1 c). clear - Hte. simpl.
  intros c (Hs & Hu & He & Hc & Hn & Hcl).
  destruct te as [now [s m x y|data|data|]]; unfold no_socket in Hte;
    simpl in *.
  - apply bool_decide_eq_true in Hte as ->.
    unfold move_effect, listen_effect. simpl. rewrite Hcl.
    destruct (bool_decide (listen_deps c = Some (None, m))), m;
      repeat case_bool_decide; simpl; by repeat split.
  - rewrite Hc. by repeat split.
  - rewrite Hn. by repeat split.
  - by repeat split.
Qed.

(** While the context holds no socket the component does nothing towards the
    transport: whatever is rendered (desktop or mobile) and however the
    pointer moves, nothing is emitted, no listener is registered and the
    registry stays as it was; the throttled publisher runs into
    [socket?.emit] with [socket] null. *)
Theorem no_socket_no_traffic (users0 : UserMap) (tr : list (Z * event)) :
  forallb no_socket tr = true →
  let c := run tr (initial users0) in
  emitted c = [] ∧ on_cursor_changed c = 0%nat ∧ on_users_updated c = 0%nat
  ∧ users c = users0.
Proof.
  intros Hno c.
  assert (socket c = None ∧ users c = users0 ∧ emitted c = []
          ∧ on_cursor_changed c = 0%nat ∧ on_users_updated c = 0%nat
          ∧ has_cleanup c = false) as (_ & Hu & He & Hc & Hn & _); [|done].
  unfold c, run. clear c.
  assert (socket (initial users0) = None ∧ users (initial users0) = users0
          ∧ emitted (initial users0) = []
          ∧ on_cursor_changed (initial users0) = 0%nat
          ∧ on_users_updated (initial users0) = 0%nat
          ∧ has_cleanup (initial users0) = false) as H0 by done.
  revert H0. generalize (initial users0).
  induction tr as [|te tr IH]; intros c0 H0; [done|].
  simpl in Hno. apply andb_prop in Hno as [Hte Hno].
  simpl. apply IH; [done|]. by apply no_socket_step.
Qed.

Lemma no_socket_no_traffic_witness :
  let c := run [(0, Render None false 10 10);
                (40, Render None false 50 60);
                (400, Tick);
                (500, Render None false 51 60);
                (900, Tick)] (initial ∅) in
  emitted c = [] ∧ on_cursor_changed c = 0%nat ∧ on_users_updated c = 0%nat
  ∧ users c = ∅.
Proof.
  apply (no_socket_no_traffic ∅
           [(0, Render None false 10 10);
            (40, Render None false 50 60);
            (400, Tick);
            (500, Render None false 51 60);
            (900, Tick)]).
  reflexivity.
Defined.

End component_more.

(** ** The remote cursor view: what holds in every state *)

Section cursor_more.
Import Cursor SocketContext Sample.

(** The time a text is shown for lies between 1000 and 3300 ms: the displayed
    text has at most 33 code units, so the cap of 4000 ms is never reached. *)
Theorem timeToRead_bounds (lastMsgContent : jsstring) :
  1000 ≤ timeToRead (textSlice lastMsgContent) ≤ 3300.
Proof.
  unfold timeToRead. rewrite textSlice_length. case_bool_decide; lia.
Qed.

Lemma commit_msgText_msgText now s (c : cursor) :
  msgText (commit_msgText now s c) = s.
Proof.
  unfold commit_msgText. case_bool_decide; [done|].
  by rewrite tooltip_effect_msgText.
Qed.

Lemma message_effect_msgText now msgs (c : cursor) :
  msgText (message_effect now msgs c) = msgText c
  ∨ ∃ m, msgText (message_effect now msgs c) = textSlice (content m).
Proof.
  unfold message_effect. destruct (last msgs) as [m|]; [|by left].
  case_bool_decide; [|by left]. right. exists m. simpl.
  by rewrite commit_msgText_msgText.
Qed.

Lemma textSlice_le_33 (lastMsgContent : jsstring) :
  (length (textSlice lastMsgContent) ≤ 33)%nat.
Proof. rewrite textSlice_length. case_bool_decide; lia. Qed.

Lemma handle_event_msgText_bounded now ev (c : cursor) :
  (length (msgText c) ≤ 33)%nat →
  (length (msgText (handle_event now ev c)) ≤ 33)%nat.
Proof.
  intros Hc. destruct ev as [x y|msgs| |]; simpl; [|  |done..].
  - case_bool_decide; [done|]. by rewrite tooltip_effect_msgText.
  - destruct (message_effect_msgText now msgs c) as [->|[m ->]]; [done|].
    apply textSlice_le_33.
Qed.

Lemma fire_msgText_bounded tm (c : cursor) :
  (length (msgText c) ≤ 33)%nat → (length (msgText (fire tm c)) ≤ 33)%nat.
Proof.
  intros Hc. unfold fire. destruct (cb tm); [done|].
  rewrite commit_msgText_msgText. simpl. lia.
Qed.

(** The text in the bubble never has more than 33 code units, in any state the
    view can reach: whatever messages arrive, of whatever length and in
    whatever order with the other events. *)
Theorem msgText_bounded (T : Z) (tr : list (Z * event))
    (t0 x y : Z) (sid : string) (msgs : list Message) :
  (length (msgText (at_time T tr (mount t0 x y sid msgs))) ≤ 33)%nat.
Proof.
  unfold at_time.
  apply (advance_inv (λ c, (length (msgText c) ≤ 33)%nat)).
  { intros c tm Hc _. by apply fire_msgText_bounded. }
  assert ((length (msgText (mount t0 x y sid msgs)) ≤ 33)%nat) as H0.
  { unfold mount.
    destruct (message_effect_msgText t0 msgs
                (tooltip_effect t0
                   {| pos_x := x; pos_y := y; socketId := sid; showText := false;
                      msgText := []; fadeOutTimeout := None; timers := [];
                      next_tid := 0 |})) as [->|[m ->]].
    - rewrite tooltip_effect_msgText. simpl. lia.
    - apply textSlice_le_33. }
  revert H0. generalize (mount t0 x y sid msgs).
  induction tr as [|te tr IH]; intros c Hc; [done|].
  simpl. apply IH. unfold step. apply handle_event_msgText_bounded.
  apply (advance_inv (λ c, (length (msgText c) ≤ 33)%nat)); [|done].
  intros c' tm Hc' _. by apply fire_msgText_bounded.
Qed.

(** Tooltip timers never pile up: in every state the view can reach, two
    pending timers that both hide the tooltip are one and the same timer. *)
Theorem one_tooltip_timer (T : Z) (tr : list (Z * event))
    (t0 x y : Z) (sid : string) (msgs : list Message) (tm tm' : timer) :
  let c := at_time T tr (mount t0 x y sid msgs) in
  tm ∈ timers c → tm' ∈ timers c →
  cb tm = HideTooltip → cb tm' = HideTooltip →
  tm = tm'.
Proof.
  intros c Hin Hin' Hcb Hcb'.
  destruct (wf_reachable T tr t0 x y sid msgs) as (Hu & _ & _ & Hh).
  apply Hu; [done..|].
  apply Hh in Hcb, Hcb'; [|done..]. fold c in Hcb, Hcb'. congruence.
Qed.

Lemma one_tooltip_timer_witness :
  let c := at_time 1500 [(1000, Move 5 5); (1200, Msgs [said "A" 11])] view_of_A in
  let tm := {| tid := 3; due := 4200; cb := HideTooltip |} in
  tm = tm.
Proof.
  cbv zeta.
  apply (one_tooltip_timer 1500 [(1000, Move 5 5); (1200, Msgs [said "A" 11])]
           0 0 0 "A" []).
  - vm_compute. by repeat constructor.
  - vm_compute. by repeat constructor.
  - reflexivity.
  - reflexivity.
Defined.

Lemma clear_in_tooltip_effect now (c : cursor) tm :
  wf c → cb tm = ClearMessage →
  tm ∈ timers (tooltip_effect now c) ↔ tm ∈ timers c.
Proof.
  intros (_ & _ & _ & Hh) Hcb. rewrite elem_of_tooltip_effect. split.
  - intros [[Hin _]| ->]; [done|discriminate].
  - intros Hin. left. split; [done|]. intros Hfo.
    apply Hh in Hfo; [|done]. congruence.
Qed.

Lemma clears_by_tooltip_effect M now (c : cursor) :
  clears_by M c → clears_by M (tooltip_effect now c).
Proof.
  intros (Hwf & Hshown & Hdue). split; [by apply wf_tooltip_effect|]. split.
  - rewrite tooltip_effect_msgText. intros Hne.
    destruct (Hshown Hne) as (tm & Hin & Hcb). exists tm. split; [|done].
    by apply clear_in_tooltip_effect.
  - intros tm Hin Hcb. apply Hdue; [|done].
    by apply (clear_in_tooltip_effect now c tm Hwf Hcb).
Qed.

Lemma clears_by_mono M M' (c : cursor) :
  M ≤ M' → clears_by M c → clears_by M' c.
Proof.
  intros HM (Hwf & Hshown & Hdue). split; [done|]. split; [done|].
  intros tm Hin Hcb. specialize (Hdue tm Hin Hcb). lia.
Qed.

Lemma clears_by_fire M (c : cursor) tm :
  tm ∈ timers c → clears_by M c → clears_by M (fire tm c).
Proof.
  intros Htm (Hwf & Hshown & Hdue).
  pose proof (wf_filter (λ tm', tid tm' ≠ tid tm) c Hwf) as Hwf1.
  assert (∀ tm0, tm0 ∈ filter (λ tm', tid tm' ≠ tid tm) (timers c) →
            cb tm0 = ClearMessage → due tm0 ≤ M + 3300) as Hdue1.
  { intros tm0 [_ Hin]%list_elem_of_filter. by apply Hdue. }
  unfold fire. destruct (cb tm) eqn:Hcb.
  - split; [revert Hwf1; by apply wf_sub|]. split; [|done]. simpl.
    intros Hne. destruct (Hshown Hne) as (tm0 & Hin & Hcb0).
    exists tm0. split; [|done]. apply list_elem_of_filter. split; [|done].
    intros Heq. destruct Hwf as (Hu & _).
    assert (tm0 = tm) as -> by by apply Hu. congruence.
  - unfold commit_msgText. case_bool_decide as Hempty.
    + split; [done|]. split; [|done]. simpl in *. by intros ?.
    + apply clears_by_tooltip_effect.
      split; [revert Hwf1; by apply wf_sub|]. split; [|done]. simpl. done.
Qed.

Lemma clears_by_advance M T (c : cursor) :
  clears_by M c → clears_by M (advance T c).
Proof.
  apply advance_inv. intros c' tm Hc' Hd.
  apply next_due_Some in Hd as [Hin _]. by apply clears_by_fire.
Qed.

Lemma clears_by_message_effect M now msgs (c : cursor) :
  clears_by M c → clears_by (Z.max M now) (message_effect now msgs c).
Proof.
  intros Hc.
  assert (clears_by (Z.max M now) c) as (Hwf & Hshown & Hdue)
    by (revert Hc; apply clears_by_mono; lia).
  unfold message_effect. destruct (last msgs) as [m|]; [|done].
  case_bool_decide; [|done]. simpl.
  set (d := timeToRead (textSlice (content m))).
  set (c1 := (setTimeout ClearMessage now d c).2).
  set (new := {| tid := next_tid c; due := now + d; cb := ClearMessage |}).
  assert (wf c1) as Hwf1 by (revert Hwf; by eapply wf_push_clear).
  assert (new ∈ timers c1) as Hnew.
  { unfold c1. simpl. apply elem_of_app. right. by apply list_elem_of_singleton. }
  assert (∀ tm, tm ∈ timers c1 → cb tm = ClearMessage →
            due tm ≤ Z.max M now + 3300) as Hdue1.
  { intros tm. unfold c1. simpl. rewrite elem_of_app, list_elem_of_singleton.
    intros [Hin| ->] Hcb; [by apply Hdue|]. simpl.
    pose proof (timeToRead_bounds (content m)). unfold d. lia. }
  change (clears_by (Z.max M now) (commit_msgText now (textSlice (content m)) c1)).
  unfold commit_msgText. case_bool_decide.
  - split; [done|]. split; [|done]. intros _. by exists new.
  - apply clears_by_tooltip_effect.
    split; [revert Hwf1; by apply wf_sub|]. split; [|done].
    intros _. by exists new.
Qed.

Lemma clears_by_handle_event M now ev (c : cursor) :
  clears_by M c → clears_by (Z.max M now) (handle_event now ev c).
Proof.
  intros Hc. destruct ev as [x y|msgs| |]; simpl.
  - assert (clears_by (Z.max M now) c) as Hc'
      by (revert Hc; apply clears_by_mono; lia).
    case_bool_decide; [done|]. apply clears_by_tooltip_effect.
    destruct Hc' as (Hwf & Hshown & Hdue).
    split; [revert Hwf; by apply wf_sub|]. by split.
  - by apply clears_by_message_effect.
  - assert (clears_by (Z.max M now) c) as (Hwf & Hshown & Hdue)
      by (revert Hc; apply clears_by_mono; lia).
    split; [revert Hwf; by apply wf_sub|]. by split.
  - assert (clears_by (Z.max M now) c) as (Hwf & Hshown & Hdue)
      by (revert Hc; apply clears_by_mono; lia).
    split; [revert Hwf; by apply wf_sub|]. by split.
Qed.

Lemma clears_by_run M tr (c : cursor) :
  clears_by M c → clears_by (latest M tr) (run tr c).
Proof.
  revert M c. induction tr as [|te tr IH]; intros M c Hc; [done|].
  simpl. apply IH. unfold step.
  by apply clears_by_handle_event, clears_by_advance.
Qed.

Lemma clears_by_mount t0 x y sid msgs :
  clears_by t0 (mount t0 x y sid msgs).
Proof.
  unfold mount. rewrite <- (Z.max_id t0) at 1.
  apply clears_by_message_effect, clears_by_tooltip_effect.
  split; [|split]; simpl; [|done|].
  - split; [|split; [|split]]; simpl; try done.
    + intros tm tm' H1. by apply elem_of_nil in H1.
    + intros tm H1. by apply elem_of_nil in H1.
    + intros tm H1. by apply elem_of_nil in H1.
  - intros tm H1. by apply elem_of_nil in H1.
Qed.

(** No text stays in the bubble: 3300 ms after the latest event of the view,
    whatever the events were, the bubble is empty (until the next message). *)
Theorem bubble_always_clears (T : Z) (tr : list (Z * event))
    (t0 x y : Z) (sid : string) (msgs : list Message) :
  latest t0 tr + 3300 ≤ T →
  msgText (at_time T tr (mount t0 x y sid msgs)) = [].
Proof.
  intros HT. unfold at_time.
  pose proof (clears_by_advance _ T _
                (clears_by_run _ tr _ (clears_by_mount t0 x y sid msgs)))
    as (_ & Hshown & Hdue).
  pose proof (advance_quiescent T (run tr (mount t0 x y sid msgs))) as Hq.
  destruct (msgText (advance T (run tr (mount t0 x y sid msgs)))) as [|a l];
    [done|].
  destruct Hshown as (tm & Hin & Hcb); [done|].
  pose proof (next_due_None _ _ _ Hq Hin). specialize (Hdue tm Hin Hcb). lia.
Qed.

Lemma bubble_always_clears_witness :
  msgText (at_time 7300
             [(1000, Msgs [said "A" 40]);
              (4000, Msgs [said "A" 40; said "A" 11])] view_of_A) = [].
Proof.
  apply (bubble_always_clears 7300
           [(1000, Msgs [said "A" 40]);
            (4000, Msgs [said "A" 40; said "A" 11])] 0 0 0 "A" []).
  vm_compute. discriminate.
Defined.

Lemma filter_ext_elem {A} (P Q : A → Prop)
    `{∀ a, Decision (P a)} `{∀ a, Decision (Q a)} (l : list A) :
  (∀ a, a ∈ l → P a ↔ Q a) → filter P l = filter Q l.
Proof.
  induction l as [|a l IH]; intros Hl; [done|].
  rewrite !filter_cons.
  assert (filter P l = filter Q l) as -> by (apply IH; intros; apply Hl; by right).
  assert (P a ↔ Q a) as Ha by (apply Hl; by left).
  destruct (decide (P a)) as [HP|HP], (decide (Q a)) as [HQ|HQ]; try done;
    tauto.
Qed.

Lemma pending_clears_tooltip_effect now (c : cursor) :
  wf c → pending_clears (tooltip_effect now c) = pending_clears c.
Proof.
  intros (_ & _ & _ & Hh). unfold pending_clears, tooltip_effect.
  destruct (fadeOutTimeout c) as [i|] eqn:Hfo; simpl; rewrite filter_app; simpl;
    rewrite app_nil_r; [|done].
  rewrite list_filter_filter. apply filter_ext_elem.
  intros tm Hin. split; [tauto|]. intros Hcb. split; [done|].
  intros Hid. assert (cb tm = HideTooltip) as Hcb'; [|congruence].
  apply Hh; [done|]. by rewrite Hid.
Qed.

(** Message timers do pile up: a message of the view's user adds one timer
    to the pending message timers and cancels none of them, whatever is
    already pending. *)
Theorem message_adds_timer (c : cursor) (now : Z) (msgs : list Message)
    (m : Message) :
  wf c → last msgs = Some m → m_socketId m = socketId c →
  pending_clears (handle_event now (Msgs msgs) c)
  = pending_clears c
    ++ [{| tid := next_tid c; due := now + timeToRead (textSlice (content m));
           cb := ClearMessage |}].
Proof.
  intros Hwf Hlast Hsid. simpl. unfold message_effect. rewrite Hlast.
  rewrite bool_decide_eq_true_2 by done. simpl.
  set (c1 := (setTimeout ClearMessage now
                (timeToRead (textSlice (content m))) c).2).
  assert (wf c1) as Hwf1 by (revert Hwf; by eapply wf_push_clear).
  assert (pending_clears c1
          = pending_clears c
            ++ [{| tid := next_tid c;
                   due := now + timeToRead (textSlice (content m));
                   cb := ClearMessage |}]) as Hc1.
  { unfold pending_clears, c1. simpl. by rewrite filter_app. }
  rewrite <- Hc1.
  change (pending_clears (commit_msgText now (textSlice (content m)) c1)
          = pending_clears c1).
  unfold commit_msgText. case_bool_decide; [done|].
  rewrite pending_clears_tooltip_effect; [done|].
  revert Hwf1. by apply wf_sub.
Qed.

Lemma message_adds_timer_witness :
  pending_clears (handle_event 1200 (Msgs [said "A" 11]) view_of_A_talking)
  = pending_clears view_of_A_talking
    ++ [{| tid := next_tid view_of_A_talking;
           due := 1200 + timeToRead (textSlice (content (said "A" 11)));
           cb := ClearMessage |}].
Proof.
  apply (message_adds_timer view_of_A_talking 1200 [said "A" 11] (said "A" 11)).
  - apply wf_run, wf_mount.
  - reflexivity.
  - reflexivity.
Defined.

(** A message received over "msg-receive" becomes the bubble text of the
    cursor of its sender, cut to 30 code units, whatever the log held before.
    When this changes the text, the tooltip is shown with it, so a message
    that is not empty is on screen; when the view already held the same text
    nothing is rendered anew, and a tooltip that was hidden stays hidden with
    the message in it.  The cursor of any other user is left exactly as it
    was. *)
Theorem received_message_shown (log : list Message) (m : Message)
    (c : cursor) (now : Z) (headerText : jsstring) :
  let c' := handle_event now (Msgs (msg_receive m log)) c in
  let shown := textSlice (content m) in
  (m_socketId m = socketId c →
     msgText c' = shown
     ∧ (msgText c ≠ shown →
          showText c' = true
          ∧ (content m ≠ [] → headerText ≠ [] →
             message_painted headerText c' = true))
     ∧ (msgText c = shown →
          showText c' = showText c
          ∧ message_painted headerText c' = message_painted headerText c))
  ∧ (m_socketId m ≠ socketId c → c' = c).
Proof.
  intros c' shown. unfold c', msg_receive. simpl. unfold message_effect.
  rewrite last_snoc. split; intros Hsid.
  - rewrite bool_decide_eq_true_2 by done. simpl.
    split; [by rewrite commit_msgText_msgText|].
    unfold commit_msgText, message_painted. simpl. fold shown. split.
    + intros Hne. rewrite bool_decide_eq_false_2 by done.
      rewrite tooltip_effect_showText, tooltip_effect_msgText. simpl.
      split; [done|]. intros Hcontent Hheader.
      rewrite !bool_decide_eq_true_2; [done| |done].
      by apply textSlice_nonempty.
    + intros Heq. by rewrite bool_decide_eq_true_2.
  - by rewrite bool_decide_eq_false_2.
Qed.

Lemma received_message_shown_witness :
  let header : jsstring := [80; 32; 70]%N in
  (let c' := handle_event 1200 (Msgs (msg_receive (said "A" 45) [said "B" 3]))
               view_of_A in
   msgText c' = textSlice (content (said "A" 45))
   ∧ showText c' = true ∧ message_painted header c' = true)
  ∧ (let c' := handle_event 1200 (Msgs (msg_receive (said "A" 11) [said "A" 11]))
                 view_of_A_hidden in
     showText c' = showText view_of_A_hidden
     ∧ message_painted header c' = message_painted header view_of_A_hidden)
  ∧ handle_event 1200 (Msgs (msg_receive (said "B" 3) [said "A" 45])) view_of_A
    = view_of_A.
Proof.
  cbv zeta. split; [|split].
  - destruct (proj1 (received_message_shown [said "B" 3] (said "A" 45)
                       view_of_A 1200 [80; 32; 70]%N) eq_refl)
      as (H1 & H2 & _).
    split; [exact H1|]. destruct H2 as [H2 H3]; [discriminate|].
    split; [exact H2|]. apply H3; discriminate.
  - destruct (proj1 (received_message_shown [said "A" 11] (said "A" 11)
                       view_of_A_hidden 1200 [80; 32; 70]%N) eq_refl)
      as (_ & _ & H3).
    apply H3. by vm_compute.
  - apply (proj2 (received_message_shown [said "A" 45] (said "B" 3)
                    view_of_A 1200 [80; 32; 70]%N)).
    discriminate.
Defined.

End cursor_more.

(** ** The elastic cursor *)

Section elastic_cursor_facts.
Import ElasticCursor Sample.

(** [getRekt] looks at the element, its parent and its grandparent, in this
    order, and no further: it gives the rectangle of the first of these three
    that has the class "cursor-can-hover", and [null] when none of the three
    has it, whatever the ancestors above them are. *)
Theorem getRekt_nearest_of_three {Rect} (el : element Rect) :
  getRekt el
  = getBoundingClientRect
      <$> head (filter (λ e, can_hover e = true) (take 3 (self_and_ancestors el))).
Proof.
  destruct el as [cl r [[cl1 r1 [[cl2 r2 p2]|]]|]]; unfold getRekt; simpl.
  - destruct p2; simpl;
      rewrite !filter_cons, ?filter_nil;
      destruct (can_hover (Element cl r _)) eqn:H0;
      destruct (can_hover (Element cl1 r1 _)) eqn:H1;
      destruct (can_hover (Element cl2 r2 _)) eqn:H2;
      repeat case_decide; try done; congruence.
  - rewrite !filter_cons, ?filter_nil;
      destruct (can_hover (Element cl r _)) eqn:H0;
      destruct (can_hover (Element cl1 r1 _)) eqn:H1;
      repeat case_decide; try done; congruence.
  - rewrite !filter_cons, ?filter_nil;
      destruct (can_hover (Element cl r _)) eqn:H0;
      repeat case_decide; try done; congruence.
Qed.

Lemma render_effect_listeners (c : mousemove) (r : bool * bool) :
  listeners c
  = (if returned_cleanup c && bool_decide (last_isLoading c = Some false)
     then 1 else 0)%nat →
  listeners (render_effect c r)
  = (if returned_cleanup (render_effect c r)
        && bool_decide (last_isLoading (render_effect c r) = Some false)
     then 1 else 0)%nat.
Proof.
  intros Hc. destruct r as [isMobile isLoading]. unfold render_effect.
  simpl fst; simpl snd.
  destruct (bool_decide (last_isLoading c = Some isLoading)); [done|].
  destruct (returned_cleanup c), (last_isLoading c) as [[|]|], isMobile,
    isLoading; simpl in *; rewrite ?Hc; try done.
Qed.

Lemma renders_listeners (rs : list (bool * bool)) (c0 : mousemove) :
  listeners c0
  = (if returned_cleanup c0 && bool_decide (last_isLoading c0 = Some false)
     then 1 else 0)%nat →
  listeners (foldl render_effect c0 rs)
  = (if returned_cleanup (foldl render_effect c0 rs)
        && bool_decide (last_isLoading (foldl render_effect c0 rs) = Some false)
     then 1 else 0)%nat.
Proof.
  revert c0. induction rs as [|r rs IH]; intros c0 H0; [done|].
  simpl. apply IH. by apply render_effect_listeners.
Qed.

(** The elastic cursor has at most one "mousemove" listener on the window,
    whatever sequence of renders it goes through; it has one exactly when the
    last run of the effect was on a viewport that is not mobile and with
    the preloader finished. *)
Theorem mousemove_listener_bounded (rs : list (bool * bool)) :
  let c := renders rs in
  (listeners c ≤ 1)%nat
  ∧ (listeners c = 1%nat
     ↔ returned_cleanup c = true ∧ last_isLoading c = Some false).
Proof.
  intros c.
  assert (listeners c
          = (if returned_cleanup c && bool_decide (last_isLoading c = Some false)
             then 1 else 0)%nat) as Hinv.
  { unfold c, renders. by apply renders_listeners. }
  rewrite Hinv.
  destruct (returned_cleanup c); simpl; [|split; [lia|]; split; [lia|]; by intros [? _]].
  case_bool_decide; split; try lia; split; try done; try lia.
  by intros [_ ?].
Qed.

End elastic_cursor_facts.

(** ** The console easter egg *)

Section easter_egg_facts.
Import EasterEggs.

Lemma define_getter_keeps (window : gmap string property) name k v :
  window !! k = Some v → define_getter window name !! k = Some v.
Proof.
  intros Hk. unfold define_getter. destruct (window !! name) eqn:Hn; [done|].
  rewrite lookup_insert_ne; [done|]. intros ->. congruence.
Qed.

Lemma define_getter_defines (window : gmap string property) name :
  is_Some (define_getter window name !! name).
Proof.
  unfold define_getter. destruct (window !! name) eqn:Hn; [by rewrite Hn|].
  by rewrite lookup_insert_eq.
Qed.

Lemma define_getter_defined (window : gmap string property) name :
  is_Some (window !! name) → define_getter window name = window.
Proof. intros [v Hv]. unfold define_getter. by rewrite Hv. Qed.

Lemma foldl_define_getter_keeps ns (window : gmap string property) k v :
  window !! k = Some v → foldl define_getter window ns !! k = Some v.
Proof.
  revert window. induction ns as [|n ns IH]; intros window Hk; [done|].
  simpl. by apply IH, define_getter_keeps.
Qed.

Lemma foldl_define_getter_noop ns (window : gmap string property) :
  (∀ n, n ∈ ns → is_Some (window !! n)) → foldl define_getter window ns = window.
Proof.
  induction ns as [|n ns IH]; intros Hns; [done|].
  simpl. rewrite define_getter_defined by (apply Hns; by left).
  apply IH. intros n' Hn'. apply Hns. by right.
Qed.

Lemma foldl_define_getter_defines ns (window : gmap string property) n :
  n ∈ ns → is_Some (foldl define_getter window ns !! n).
Proof.
  revert window. induction ns as [|n' ns IH]; intros window Hn;
    [by apply elem_of_nil in Hn|].
  simpl. apply elem_of_cons in Hn as [->|Hn]; [|by apply IH].
  destruct (define_getter_defines window n') as [v Hv].
  exists v. by apply foldl_define_getter_keeps.
Qed.

(** The easter egg never replaces a property that [window] already has, be it
    the page's own global of that name; with the developer tools open the
    three names are all defined afterwards; and running the effect again
    changes nothing. *)
Theorem easter_egg_defines_once (isDevToolsOpen : bool)
    (window : gmap string property) :
  let window' := effect isDevToolsOpen window in
  (∀ k v, window !! k = Some v → window' !! k = Some v)
  ∧ (isDevToolsOpen = true → ∀ name, name ∈ names → is_Some (window' !! name))
  ∧ effect isDevToolsOpen window' = window'.
Proof.
  intros window'. unfold window', effect. destruct isDevToolsOpen.
  - split; [|split].
    + intros k v. apply foldl_define_getter_keeps.
    + intros _ name. apply foldl_define_getter_defines.
    + apply foldl_define_getter_noop. intros n.
      apply foldl_define_getter_defines.
  - by repeat split.
Qed.

Lemma easter_egg_defines_once_witness :
  let window : gmap string property := {[ "Naresh" := Other (VNumber 1) ]} in
  let window' := effect true window in
  window' !! "Naresh" = Some (Other (VNumber 1))
  ∧ is_Some (window' !! "naresh")
  ∧ effect true window' = window'.
Proof.
  cbv zeta.
  destruct (easter_egg_defines_once true {[ "Naresh" := Other (VNumber 1) ]})
    as (H1 & H2 & H3).
  split; [|split].
  - apply H1. reflexivity.
  - apply H2; [reflexivity|]. unfold names. by repeat constructor.
  - exact H3.
Defined.

End easter_egg_facts.
